(** * EthereumIndexer: block-range scanning and checkpointing engine

    Shallow embedding of
    [safe_transaction_service/history/indexers/ethereum_indexer.py]
    and the properties of its range calculator, adaptive throttle,
    checkpointer and two-tier orchestrator.

    Conventions of the embedding:
    - Python integers are [Z]; [//] is [Z.div] (both round towards minus
      infinity for a positive divisor).
    - The table behind [database_queryset] is a finite map from address to
      the integer stored in [database_field] (one row per address).
    - A method that only reads [self] and the table is a pure function of
      the configuration and the state; a method with effects is a
      computation in a state-and-exception monad.
    - The abstract methods [find_relevant_elements] and [process_element]
      are parameters.  They run against the engine's in-memory state (they
      may resize [block_process_limit], as [auto_adjust_block_limit] does)
      and against the outside world, but they do not write the watermark
      column: that column is written by [update_monitored_addresses] only.
    - [ethereum_client.current_block_number] is one value for the whole
      run: the chain head does not move while a run is analysed.
    - Of the logging calls only the ones that statements below refer to
      are recorded in the trace. *)

From Stdlib Require Import ZArith List Lia Bool.
From stdpp Require Import base gmap strings list fin_maps fin_sets.

Local Open Scope Z_scope.

(** ** Python values and exceptions *)

(** The exception classes that occur in the module, and a constructor for
    any other class a strategy may raise. *)
Inductive exn : Type :=
  | FindRelevantElementsException
  | SoftTimeLimitExceeded
  | Timeout
  | ValueError
  | Web3RPCError
  | TypeError
  | AssertionError
  | NotImplementedError
  | OtherException (name : string).

Inductive result (A : Type) : Type :=
  | Return (a : A)
  | Raise (e : exn).
Arguments Return {A} a.
Arguments Raise {A} e.

(** The classes named by the [except] clause of [process_addresses]. *)
Definition transient (e : exn) : bool :=
  match e with
  | FindRelevantElementsException | SoftTimeLimitExceeded | Timeout
  | ValueError | Web3RPCError => true
  | _ => false
  end.

(** [x or y] for an optional integer [x]: [None] and [0] are falsy. *)
Definition py_or (x : option Z) (y : Z) : Z :=
  match x with
  | Some v => if v =? 0 then y else v
  | None => y
  end.

(** [a < b] where either side may be [None]: comparing [None] with an
    integer raises [TypeError]. *)
Definition py_lt (a b : option Z) : result bool :=
  match a, b with
  | Some x, Some y => Return (x <? y)
  | _, _ => Raise TypeError
  end.

(** [x += 1] on a variable that may hold [None]. *)
Definition py_iadd_one (x : option Z) : result (option Z) :=
  match x with
  | Some v => Return (Some (v + 1))
  | None => Raise TypeError
  end.

(** ** Configuration, state and trace *)

(** Constructor arguments that never change, and the chain head served by
    the client. *)
Record config : Type := {
  confirmations : Z;
  initial_block_process_limit : Z;
  block_process_limit_max : Z;
  blocks_to_reindex_again : Z;
  updated_blocks_behind : Z;
  block_auto_process_limit : bool;
  ethereum_client_current_block_number : Z
}.

Inductive tier : Type := AlmostUpdated | NotUpdated.

(** Observable operations: the queries and the update sent to the table,
    the warning of [update_monitored_addresses], the reset notice of
    [process_addresses] and the per-batch debug line of [start]. *)
Inductive event : Type :=
  | QueryMin (addresses : option (gset string)) (answer : option Z)
  | QueryBetween (from_block to_block : Z) (answer : gset string)
  | QueryUpTo (to_block : Z) (answer : gset string)
  | Update (addresses : gset string) (from_block new_to_block : Z)
           (updated : nat)
  | LogPossibleReorg (updated total : nat) (from_block new_to_block : Z)
  | LogLimitReset
  | LogProcessed (t : tier) (number : Z) (from_block : option Z)
                 (to_block : Z).

Section Engine.

(** The outside world (node, clock), raw elements and processed records. *)
Context {World Element Processed : Type}.

(** [int(time.time())] *)
Variable time_time : World -> Z.

(** In-memory state of one engine instance plus the world it talks to. *)
Record engine : Type := {
  block_process_limit : Z;
  world : World
}.

Record state : Type := {
  self : engine;
  table : gmap string Z;
  trace : list event
}.

(** Computations of a strategy: engine and world only. *)
Definition strategy (A : Type) : Type := engine -> result A * engine.

(** Computations of the indexer. *)
Definition indexer (A : Type) : Type := state -> result A * state.

Definition sret {A} (a : A) : strategy A := fun e => (Return a, e).

Definition sbind {A B} (m : strategy A) (k : A -> strategy B) : strategy B :=
  fun e => match m e with
           | (Return a, e') => k a e'
           | (Raise x, e') => (Raise x, e')
           end.

Definition iret {A} (a : A) : indexer A := fun s => (Return a, s).

Definition iraise {A} (x : exn) : indexer A := fun s => (Raise x, s).

Definition ibind {A B} (m : indexer A) (k : A -> indexer B) : indexer B :=
  fun s => match m s with
           | (Return a, s') => k a s'
           | (Raise x, s') => (Raise x, s')
           end.

Definition emit (ev : event) : indexer unit :=
  fun s => (Return tt,
            {| self := self s; table := table s; trace := trace s ++ [ev] |}).

Definition set_block_process_limit (n : Z) : indexer unit :=
  fun s => (Return tt,
            {| self := {| block_process_limit := n; world := world (self s) |};
               table := table s; trace := trace s |}).

(** Run a strategy computation inside the indexer. *)
Definition lift {A} (m : strategy A) : indexer A :=
  fun s => let '(r, e) := m (self s) in
           (r, {| self := e; table := table s; trace := trace s |}).

(** The two abstract methods. *)
Record pipeline : Type := {
  find_relevant_elements :
    gset string -> Z -> Z -> Z -> strategy (list Element);
  process_element : Element -> strategy (list Processed)
}.

(** [process_element] of the base class: [raise NotImplementedError]. *)
Definition process_element_unimplemented (element : Element)
    : strategy (list Processed) :=
  fun e => (Raise NotImplementedError, e).

Variable cfg : config.
Variable pl : pipeline.

(** ** process_elements *)

Fixpoint process_elements_loop (elements : list Element)
    (processed_objects : list (list Processed))
    : strategy (list (list Processed)) :=
  match elements with
  | [] => sret processed_objects
  | element :: rest =>
      sbind (process_element pl element) (fun r =>
      process_elements_loop rest (processed_objects ++ [r]))
  end.

Definition process_elements (elements : list Element)
    : strategy (list Processed) :=
  sbind (process_elements_loop elements []) (fun processed_objects =>
  sret (concat processed_objects)).

(** ** Range calculator *)

(** [Min] aggregate over a queryset; [None] on an empty one. *)
Definition list_min (l : list Z) : option Z :=
  foldr (fun w acc => Some (match acc with
                            | Some m => Z.min w m
                            | None => w
                            end)) None l.

Definition queryset_min (rows : gmap string Z) : option Z :=
  list_min ((map_to_list rows).*2).

(** [filter(address__in=addresses)] *)
Definition address_in (addresses : gset string) (rows : gmap string Z)
    : gmap string Z :=
  filter (fun row => row.1 ∈ addresses) rows.

Definition get_from_block_number (rows : gmap string Z)
    (addresses : option (gset string)) : option Z :=
  match addresses with
  | Some a => if decide (a = ∅) then queryset_min rows
              else queryset_min (address_in a rows)
  | None => queryset_min rows
  end.

Definition get_to_block_number (s : state)
    (from_block_number current_block_number : Z) : Z :=
  Z.min (from_block_number + block_process_limit (self s) - 1)
        (current_block_number - confirmations cfg).

Definition get_block_numbers_for_search (s : state)
    (addresses : gset string) (current_block_number : option Z)
    : option (Z * Z) :=
  let current_block_number :=
    py_or current_block_number (ethereum_client_current_block_number cfg) in
  match get_from_block_number (table s) (Some addresses) with
  | None => None
  | Some from_block_number =>
      if current_block_number - from_block_number <? confirmations cfg
      then None
      else
        let to_block_number :=
          get_to_block_number s from_block_number current_block_number in
        let from_block_number :=
          if from_block_number + block_process_limit (self s)
               >? current_block_number - confirmations cfg
          then
            let blocks_to_reindex :=
              Z.min (block_process_limit (self s)
                     - (to_block_number - from_block_number + 1))
                    (blocks_to_reindex_again cfg) in
            Z.max (from_block_number - blocks_to_reindex) 0
          else from_block_number in
        Some (from_block_number, to_block_number)
  end.

(** ** Watermark repository: the two address tiers *)

Definition addresses_of (rows : gmap string Z) : gset string := dom rows.

Definition get_almost_updated_addresses (s : state) (current_block_number : Z)
    : gset string :=
  let from_block_number :=
    Z.max (py_or (get_from_block_number (table s) None) 0)
          (current_block_number - updated_blocks_behind cfg) in
  let to_block_number := current_block_number - confirmations cfg in
  addresses_of
    (filter (fun row => row.2 < to_block_number ∧ from_block_number <= row.2)
            (table s)).

Definition get_not_updated_addresses (s : state) (current_block_number : Z)
    : gset string :=
  addresses_of
    (filter (fun row => row.2 <= current_block_number - confirmations cfg)
            (table s)).

(** ** Checkpointer *)

(** The rows selected by the conditional update. *)
Definition rows_to_update (addresses : gset string)
    (from_block_number new_to_block_number : Z) (rows : gmap string Z)
    : gmap string Z :=
  filter (fun row => row.1 ∈ addresses
                     ∧ from_block_number <= row.2
                     ∧ row.2 < new_to_block_number) rows.

(** [queryset.filter(...).update(field=new_to_block_number)]: the selected
    rows get the new value, the result is their number. *)
Definition queryset_update (addresses : gset string)
    (from_block_number new_to_block_number : Z) (rows : gmap string Z)
    : nat * gmap string Z :=
  let selected :=
    rows_to_update addresses from_block_number new_to_block_number rows in
  (size selected, ((fun _ => new_to_block_number) <$> selected) ∪ rows).

Definition update_monitored_addresses (addresses : gset string)
    (from_block_number to_block_number : Z) : indexer nat :=
  fun s =>
    let new_to_block_number := to_block_number + 1 in
    let '(updated_addresses, rows) :=
      queryset_update addresses from_block_number new_to_block_number
                      (table s) in
    let s1 := {| self := self s; table := rows;
                 trace := trace s ++ [Update addresses from_block_number
                                        new_to_block_number
                                        updated_addresses] |} in
    let all_updated := bool_decide (updated_addresses = size addresses) in
    let s2 :=
      if all_updated then s1
      else {| self := self s1; table := table s1;
              trace := trace s1 ++ [LogPossibleReorg updated_addresses
                                      (size addresses) from_block_number
                                      new_to_block_number] |} in
    (Return updated_addresses, s2).

(** ** Adaptive throttle *)

(** The [if]/[elif] chain on the measured [delta]. *)
Definition adjust_for_delta (delta limit : Z) : Z :=
  if delta >? 30 then Z.max (limit / 2) 1
  else if delta >? 10 then Z.max (limit - 20) 1
  else if delta <? 2 then limit * 2
  else if delta <? 5 then limit + 20
  else limit.

(** The final clamp; a maximum of [0] is falsy and switches it off. *)
Definition clamp_to_max (limit : Z) : Z :=
  if negb (block_process_limit_max cfg =? 0)
     && (limit >? block_process_limit_max cfg)
  then block_process_limit_max cfg
  else limit.

(** The context manager wrapped around [body].  When [body] raises, the
    exception is thrown into the generator at its [yield] and nothing after
    the [yield] runs. *)
Definition auto_adjust_block_limit {A} (from_block_number to_block_number : Z)
    (body : strategy A) : strategy A :=
  fun e =>
    if negb (block_auto_process_limit cfg
             && (1 + to_block_number - from_block_number
                   =? block_process_limit e))
    then body e
    else
      let start := time_time (world e) in
      match body e with
      | (Raise x, e') => (Raise x, e')
      | (Return a, e') =>
          let delta := time_time (world e') - start in
          (Return a,
           {| block_process_limit :=
                clamp_to_max (adjust_for_delta delta (block_process_limit e'));
              world := world e' |})
      end.

(** ** One batch *)

(** The body of the [try] block. *)
Definition find_and_process (addresses : gset string)
    (from_block_number to_block_number current_block_number : Z)
    : strategy (list Processed) :=
  sbind (find_relevant_elements pl addresses from_block_number
           to_block_number current_block_number) process_elements.

Definition process_addresses (addresses : gset string)
    (current_block_number : option Z)
    : indexer (list Processed * option Z * Z * bool) :=
  if decide (addresses = ∅) then iraise AssertionError
  else
    let current_block_number :=
      py_or current_block_number (ethereum_client_current_block_number cfg) in
    fun s =>
      let parameters :=
        get_block_numbers_for_search s addresses (Some current_block_number) in
      let s := {| self := self s; table := table s;
                  trace := trace s ++ [QueryMin (Some addresses)
                    (get_from_block_number (table s) (Some addresses))] |} in
      match parameters with
      | None => (Return ([], None, current_block_number, true), s)
      | Some (from_block_number, to_block_number) =>
          let updated :=
            to_block_number =? current_block_number - confirmations cfg in
          match lift (find_and_process addresses from_block_number
                        to_block_number current_block_number) s with
          | (Raise e, s') =>
              if transient e
              then ibind (set_block_process_limit 1) (fun _ =>
                   ibind (emit LogLimitReset) (fun _ =>
                   iraise e)) s'
              else (Raise e, s')
          | (Return processed_elements, s') =>
              ibind (update_monitored_addresses addresses from_block_number
                       to_block_number) (fun n =>
              if (n =? 0)%nat then iraise ValueError
              else iret (processed_elements, Some from_block_number,
                         to_block_number, updated)) s'
          end
      end.

(** ** The run *)

(** Local variables of [start] that live across loop iterations. *)
Record locals : Type := {
  total_number_processed_elements : Z;
  start_block : option Z;
  from_block_number : option Z;
  to_block_number : option Z
}.

(** A computation that may not finish within its fuel. *)
Definition looping (A : Type) : Type := state -> option (result A * state).

(** First tier: [while not updated] over the almost updated addresses. *)
Fixpoint almost_updated_loop (fuel : nat) (addresses : gset string)
    (current_block_number : Z) (l : locals) : looping locals :=
  fun s =>
    match fuel with
    | O => None
    | S fuel =>
        match process_addresses addresses (Some current_block_number) s with
        | (Raise e, s') => Some (Raise e, s')
        | (Return (processed_elements, from_bn, to_bn, updated), s') =>
            let number_processed_elements :=
              Z.of_nat (length processed_elements) in
            let s' := {| self := self s'; table := table s';
                         trace := trace s' ++ [LogProcessed AlmostUpdated
                           number_processed_elements from_bn to_bn] |} in
            let l' :=
              {| total_number_processed_elements :=
                   total_number_processed_elements l
                   + number_processed_elements;
                 start_block := match start_block l with
                                | None => from_bn
                                | Some b => Some b
                                end;
                 from_block_number := from_bn;
                 to_block_number := Some to_bn |} in
            if updated then Some (Return l', s')
            else almost_updated_loop fuel addresses current_block_number l' s'
        end
    end.

(** Second tier.  [bump] is the statement executed on the loop-local
    [from_block_number] at the end of an iteration. *)
Fixpoint not_updated_loop (bump : option Z -> result (option Z))
    (fuel : nat) (addresses : gset string) (current_block_number : Z)
    (l : locals)
    : looping locals :=
  fun s =>
    match fuel with
    | O => None
    | S fuel =>
        match process_addresses addresses (Some current_block_number) s with
        | (Raise e, s') => Some (Raise e, s')
        | (Return (processed_elements, from_bn, to_bn, updated), s') =>
            let new_start :=
              match start_block l with
              | None => Return from_bn
              | Some b =>
                  match py_lt from_bn (Some b) with
                  | Return true => Return from_bn
                  | Return false => Return (Some b)
                  | Raise e => Raise e
                  end
              end in
            match new_start with
            | Raise e => Some (Raise e, s')
            | Return new_start =>
                let number_processed_elements :=
                  Z.of_nat (length processed_elements) in
                let s' := {| self := self s'; table := table s';
                             trace := trace s' ++ [LogProcessed NotUpdated
                               number_processed_elements from_bn to_bn] |} in
                match bump from_bn with
                | Raise e => Some (Raise e, s')
                | Return from_bn' =>
                    let l' :=
                      {| total_number_processed_elements :=
                           total_number_processed_elements l
                           + number_processed_elements;
                         start_block := new_start;
                         from_block_number := from_bn';
                         to_block_number := Some to_bn |} in
                    if updated then Some (Return l', s')
                    else not_updated_loop bump fuel addresses
                           current_block_number l' s'
                end
            end
        end
    end.

(** [start], with the end-of-iteration statement of the second loop as a
    parameter. *)
Definition start_with (bump : option Z -> result (option Z)) (fuel : nat)
    : looping (Z * Z) :=
  fun s =>
    let current_block_number := ethereum_client_current_block_number cfg in
    let l := {| total_number_processed_elements := 0; start_block := None;
                from_block_number := None; to_block_number := None |} in
    let last_block : option Z := None in
    (* first tier *)
    let global_min := get_from_block_number (table s) None in
    let almost_updated_addresses :=
      get_almost_updated_addresses s current_block_number in
    let s := {| self := self s; table := table s;
                trace := trace s ++
                  [QueryMin None global_min;
                   QueryBetween
                     (Z.max (py_or global_min 0)
                            (current_block_number - updated_blocks_behind cfg))
                     (current_block_number - confirmations cfg)
                     almost_updated_addresses] |} in
    let first :=
      if decide (almost_updated_addresses = ∅) then Some (Return l, s)
      else almost_updated_loop fuel almost_updated_addresses
             current_block_number l s in
    match first with
    | None => None
    | Some (Raise e, s) => Some (Raise e, s)
    | Some (Return l, s) =>
        let last_block :=
          if decide (almost_updated_addresses = ∅) then last_block
          else to_block_number l in
        (* second tier *)
        let not_updated_addresses :=
          get_not_updated_addresses s current_block_number in
        let s := {| self := self s; table := table s;
                    trace := trace s ++
                      [QueryUpTo (current_block_number - confirmations cfg)
                         not_updated_addresses] |} in
        let second :=
          if decide (not_updated_addresses = ∅)
          then Some (Return (l, last_block), s)
          else
            match not_updated_loop bump fuel not_updated_addresses
                    current_block_number l s with
            | None => None
            | Some (Raise e, s) => Some (Raise e, s)
            | Some (Return l, s) =>
                match last_block with
                | None => Some (Return (l, to_block_number l), s)
                | Some lb =>
                    match py_lt (Some lb) (to_block_number l) with
                    | Raise e => Some (Raise e, s)
                    | Return true => Some (Return (l, to_block_number l), s)
                    | Return false => Some (Return (l, Some lb), s)
                    end
                end
            end in
        match second with
        | None => None
        | Some (Raise e, s) => Some (Raise e, s)
        | Some (Return (l, last_block), s) =>
            let number_of_blocks_processed :=
              match start_block l, last_block with
              | Some sb, Some lb => lb - sb + 1
              | _, _ => 0
              end in
            Some (Return (total_number_processed_elements l,
                          number_of_blocks_processed), s)
        end
    end.

(** [start] as written: the second loop ends with
    [from_block_number += 1]. *)
Definition start : nat -> looping (Z * Z) := start_with py_iadd_one.

(** [start] with that statement removed. *)
Definition start_without_increment : nat -> looping (Z * Z) :=
  start_with Return.

End Engine.

(** ** Vocabulary of the statements *)

(** [m] is the smallest watermark among the rows of [addresses]. *)
Definition min_watermark (rows : gmap string Z) (addresses : gset string)
    (m : Z) : Prop :=
  (∃ a, a ∈ addresses ∧ rows !! a = Some m)
  ∧ ∀ a w, a ∈ addresses → rows !! a = Some w → m <= w.

(** Every address of a tier has a row, and its watermark lies between [lo]
    and the last confirmed block. *)
Definition tier_inv (cfg : config) (addresses : gset string) (lo : Z)
    (rows : gmap string Z) : Prop :=
  ∀ a, a ∈ addresses →
    ∃ w, rows !! a = Some w
         ∧ lo <= w
             <= ethereum_client_current_block_number cfg - confirmations cfg.

(** No row is added or removed and no watermark moves backward. *)
Definition advances (rows rows' : gmap string Z) : Prop :=
  ∀ a, match rows !! a, rows' !! a with
       | Some w, Some w' => w <= w'
       | None, None => True
       | _, _ => False
       end.

(** What a batch that commits adds to the trace. *)
Definition batch_events (addresses : gset string) (rows : gmap string Z)
    (from_block to_block : Z) : list event :=
  let n := size (rows_to_update addresses from_block (to_block + 1) rows) in
  [QueryMin (Some addresses) (get_from_block_number rows (Some addresses));
   Update addresses from_block (to_block + 1) n]
  ++ (if bool_decide (n = size addresses) then []
      else [LogPossibleReorg n (size addresses) from_block (to_block + 1)]).

(** Two sets of locals that differ at most in the loop-local
    [from_block_number]. *)
Definition same_locals (l1 l2 : locals) : Prop :=
  total_number_processed_elements l1 = total_number_processed_elements l2
  ∧ start_block l1 = start_block l2
  ∧ to_block_number l1 = to_block_number l2.

Definition same_outcome {World}
    (r1 r2 : option (result locals * @state World)) : Prop :=
  match r1, r2 with
  | None, None => True
  | Some (Return l1, s1), Some (Return l2, s2) => same_locals l1 l2 ∧ s1 = s2
  | Some (Raise e1, s1), Some (Raise e2, s2) => e1 = e2 ∧ s1 = s2
  | _, _ => False
  end.

Definition tier_eqb (a b : tier) : bool :=
  match a, b with
  | AlmostUpdated, AlmostUpdated | NotUpdated, NotUpdated => true
  | _, _ => false
  end.

(** The batches of one tier as the debug lines of a trace report them:
    number of elements, first block, last block. *)
Definition processed_batches (t : tier) (tr : list event)
    : list (Z * option Z * Z) :=
  omap (fun ev => match ev with
                  | LogProcessed t' n f l =>
                      if tier_eqb t t' then Some (n, f, l) else None
                  | _ => None
                  end) tr.

Definition elements_of (bs : list (Z * option Z * Z)) : Z :=
  foldr (fun b acc => b.1.1 + acc) 0 bs.

Definition first_blocks (bs : list (Z * option Z * Z)) : list Z :=
  omap (fun b => b.1.2) bs.

Definition last_blocks (bs : list (Z * option Z * Z)) : list Z :=
  (fun b => b.2) <$> bs.

Definition list_max (l : list Z) : option Z :=
  foldr (fun w acc => Some (match acc with
                            | Some m => Z.max w m
                            | None => w
                            end)) None l.

(** Number of blocks from [first] to [last], [0] when a bound is missing. *)
Definition blocks_between (first last : option Z) : Z :=
  match first, last with
  | Some f, Some l => l - f + 1
  | _, _ => 0
  end.

(** ** Concrete engines *)

Module Demo.

Local Open Scope string_scope.

(** The world is the wall clock, in seconds. *)
Definition wall_clock (w : Z) : Z := w.

Definition cfg (conf limit_max reindex behind head : Z) : config :=
  {| confirmations := conf;
     initial_block_process_limit := 10;
     block_process_limit_max := limit_max;
     blocks_to_reindex_again := reindex;
     updated_blocks_behind := behind;
     block_auto_process_limit := true;
     ethereum_client_current_block_number := head |}.

(** A strategy that wraps its fetch in the throttle, finds one element per
    batch and expands it into two records; the clock does not advance. *)
Definition throttled (c : config) : @pipeline Z unit unit :=
  {| find_relevant_elements := fun _ f t _ =>
       auto_adjust_block_limit wall_clock c f t (sret [tt]);
     process_element := fun _ => sret [tt; tt] |}.

(** A strategy whose fetch times out after one second. *)
Definition timing_out : @pipeline Z unit unit :=
  {| find_relevant_elements := fun _ _ _ _ e =>
       (Raise Timeout,
        {| block_process_limit := block_process_limit e;
           world := world e + 1 |});
     process_element := fun _ => sret [] |}.

(** A fetch that takes 35 seconds. *)
Definition slow_fetch : @strategy Z unit :=
  fun e => (Return tt,
            {| block_process_limit := block_process_limit e;
               world := world e + 35 |}).

Definition engine_with (limit : Z) : @engine Z :=
  {| block_process_limit := limit; world := 0 |}.

Definition state_with (limit : Z) (rows : gmap string Z) : @state Z :=
  {| self := engine_with limit; table := rows; trace := [] |}.

Definition one_address : gset string := {[ "0xA" ]}.

Definition two_addresses : gset string := {[ "0xA"; "0xB" ]}.

Definition two_rows : gmap string Z := {[ "0xA" := 5; "0xB" := 100 ]}.

(** A strategy that finds one element and inherits [process_element]. *)
Definition unimplemented : @pipeline Z unit unit :=
  {| find_relevant_elements := fun _ _ _ _ => sret [tt];
     process_element := process_element_unimplemented |}.


(** A strategy that expands the element [true] into one record and fails
    on the element [false]. *)
Definition picky : @pipeline Z bool unit :=
  {| find_relevant_elements := fun _ _ _ _ => sret [true; false; true];
     process_element := fun b e =>
       if b then (Return [tt], e) else (Raise ValueError, e) |}.

(** One address at watermark 10, window 10. *)
Definition behind_state : @state Z := state_with 10 {[ "0xA" := 10 ]}.

(** One address already past height 25. *)
Definition ahead_state : @state Z := state_with 10 {[ "0xA" := 30 ]}.

End Demo.

(** * Properties *)

(** ** The minimum of a queryset *)

Lemma list_min_None (l : list Z) : list_min l = None ↔ l = [].
Proof. destruct l; simpl; split; intros; congruence. Qed.

Lemma list_min_Some (l : list Z) (m : Z) :
  list_min l = Some m ↔ m ∈ l ∧ ∀ x, x ∈ l → m <= x.
Proof.
  revert m. induction l as [|w l IH]; intros m; simpl.
  - split; [congruence | intros [H _]; by apply elem_of_nil in H].
  - destruct (list_min l) as [m'|] eqn:E.
    + destruct (IH m') as [IH1 _]. destruct (IH1 eq_refl) as [Hin Hle].
      split.
      * intros [= <-]. split.
        -- destruct (Z.min_spec w m') as [[_ ->]|[_ ->]];
             [apply list_elem_of_here | by apply list_elem_of_further].
        -- intros x [->|Hx]%elem_of_cons; [lia|]. specialize (Hle x Hx). lia.
      * intros [Hm Hall]. f_equal.
        assert (m <= w) by (apply Hall, list_elem_of_here).
        assert (m <= m') by (by apply Hall, list_elem_of_further).
        apply elem_of_cons in Hm as [->|Hm]; [lia|].
        specialize (Hle m Hm). lia.
    + apply list_min_None in E. subst l. split.
      * intros [= <-]. split; [apply list_elem_of_here|].
        intros x [->|Hx]%elem_of_cons; [lia | by apply elem_of_nil in Hx].
      * intros [[->|Hm]%elem_of_cons _]; [done | by apply elem_of_nil in Hm].
Qed.

Lemma queryset_min_None (rows : gmap string Z) :
  queryset_min rows = None ↔ rows = ∅.
Proof.
  unfold queryset_min. rewrite list_min_None. split.
  - intros H. apply fmap_nil_inv in H. by apply map_to_list_empty_iff.
  - intros ->. by rewrite map_to_list_empty.
Qed.

Lemma queryset_min_Some (rows : gmap string Z) (m : Z) :
  queryset_min rows = Some m ↔
  (∃ a, rows !! a = Some m) ∧ ∀ a w, rows !! a = Some w → m <= w.
Proof.
  unfold queryset_min. rewrite list_min_Some. split.
  - intros [Hin Hle]. split.
    + apply list_elem_of_fmap in Hin as [[a w] [-> Hin]].
      exists a. by apply elem_of_map_to_list in Hin.
    + intros a w Haw. apply Hle. apply list_elem_of_fmap.
      exists (a, w). split; [done|]. by apply elem_of_map_to_list.
  - intros [[a Ha] Hle]. split.
    + apply list_elem_of_fmap. exists (a, m). split; [done|].
      by apply elem_of_map_to_list.
    + intros x Hx. apply list_elem_of_fmap in Hx as [[b w] [-> Hin]].
      apply elem_of_map_to_list in Hin. by apply (Hle b).
Qed.

Lemma lookup_address_in (A : gset string) (rows : gmap string Z) a w :
  address_in A rows !! a = Some w ↔ a ∈ A ∧ rows !! a = Some w.
Proof.
  unfold address_in. rewrite map_lookup_filter_Some. simpl. tauto.
Qed.

(** For a non-empty address set [get_from_block_number] is the minimum
    watermark of its rows. *)
Lemma get_from_block_number_min (rows : gmap string Z) (A : gset string) m :
  A ≠ ∅ →
  get_from_block_number rows (Some A) = Some m ↔ min_watermark rows A m.
Proof.
  intros HA. unfold get_from_block_number, min_watermark.
  destruct (decide (A = ∅)) as [|_]; [done|].
  rewrite queryset_min_Some. split.
  - intros [[a Ha] Hle]. apply lookup_address_in in Ha as [Ha1 Ha2]. split.
    + by exists a.
    + intros b w Hb Hw. apply (Hle b). by apply lookup_address_in.
  - intros [(a & Ha1 & Ha2) Hle]. split.
    + exists a. by apply lookup_address_in.
    + intros b w [Hb Hw]%lookup_address_in. by apply (Hle b).
Qed.

Lemma get_from_block_number_None (rows : gmap string Z) (A : gset string) :
  A ≠ ∅ →
  get_from_block_number rows (Some A) = None ↔ ∀ a, a ∈ A → rows !! a = None.
Proof.
  intros HA. unfold get_from_block_number.
  destruct (decide (A = ∅)) as [|_]; [done|].
  rewrite queryset_min_None. split.
  - intros He a Ha. destruct (rows !! a) as [w|] eqn:E; [|done].
    assert (address_in A rows !! a = Some w) as H
      by by apply lookup_address_in.
    rewrite He in H. by rewrite lookup_empty in H.
  - intros Hn. apply map_eq. intros a. rewrite lookup_empty.
    destruct (address_in A rows !! a) as [w|] eqn:E; [|done].
    apply lookup_address_in in E as [Ha Hw]. rewrite (Hn a Ha) in Hw. done.
Qed.

Lemma get_from_block_number_row (rows : gmap string Z) o m :
  get_from_block_number rows o = Some m → ∃ a, rows !! a = Some m.
Proof.
  unfold get_from_block_number. intros H.
  assert (queryset_min rows = Some m
          ∨ ∃ A, queryset_min (address_in A rows) = Some m) as [H'|[A H']].
  { destruct o as [A|]; [destruct (decide (A = ∅))|]; eauto. }
  - apply queryset_min_Some in H' as [[a Ha] _]. eauto.
  - apply queryset_min_Some in H' as [[a Ha] _].
    apply lookup_address_in in Ha as [_ Ha]. eauto.
Qed.

Lemma min_watermark_nonempty rows A m : min_watermark rows A m → A ≠ ∅.
Proof. intros [(a & Ha & _) _]. set_solver. Qed.

Lemma py_or_idem x c : py_or (Some (py_or x c)) c = py_or x c.
Proof.
  unfold py_or. destruct x as [v|].
  - destruct (v =? 0) eqn:E.
    + by destruct (c =? 0).
    + by rewrite E.
  - by destruct (c =? 0).
Qed.

Lemma py_or_same c : py_or (Some c) c = c.
Proof. unfold py_or. by destruct (c =? 0). Qed.

(** ** Range calculator *)

Section Range.

Context {World : Type}.
Variable cfg : config.
Implicit Types s : @state World.

Lemma range_unfold s A cbn m :
  get_from_block_number (table s) (Some A) = Some m →
  get_block_numbers_for_search cfg s A cbn =
    let H := py_or cbn (ethereum_client_current_block_number cfg) in
    let w := block_process_limit (self s) in
    if H - m <? confirmations cfg then None
    else
      let t := Z.min (m + w - 1) (H - confirmations cfg) in
      Some (if m + w >? H - confirmations cfg
            then Z.max (m - Z.min (w - (t - m + 1))
                                  (blocks_to_reindex_again cfg)) 0
            else m, t).
Proof.
  intros Hm. unfold get_block_numbers_for_search, get_to_block_number.
  rewrite Hm. reflexivity.
Qed.

Lemma range_py_or s A cbn :
  get_block_numbers_for_search cfg s A
    (Some (py_or cbn (ethereum_client_current_block_number cfg)))
  = get_block_numbers_for_search cfg s A cbn.
Proof. unfold get_block_numbers_for_search. by rewrite py_or_idem. Qed.

(** Claim C3.  Let [m] be the minimum watermark of the address set and [H]
    the current height: the one passed in, or the client's when none (or
    [0]) is passed.  When [H - m >= confirmations], the calculator returns
    a range whose upper bound is
    [min (m + block_process_limit - 1) (H - confirmations)]; that bound
    never exceeds [H - confirmations]. *)
Theorem search_range_upper_bound s A cbn m :
  let H := py_or cbn (ethereum_client_current_block_number cfg) in
  min_watermark (table s) A m →
  H - m >= confirmations cfg →
  ∃ f t, get_block_numbers_for_search cfg s A cbn = Some (f, t)
         ∧ t = Z.min (m + block_process_limit (self s) - 1)
                     (H - confirmations cfg)
         ∧ t <= H - confirmations cfg.
Proof.
  intros H Hmin Hge.
  pose proof (min_watermark_nonempty _ _ _ Hmin) as HA.
  apply get_from_block_number_min in Hmin; [|done].
  rewrite (range_unfold _ _ _ _ Hmin). cbv zeta. fold H.
  destruct (H - m <? confirmations cfg) eqn:E; [apply Z.ltb_lt in E; lia|].
  eexists _, _. split; [reflexivity|]. split; [reflexivity|]. lia.
Qed.

(** Claim C4.  With [m] the minimum watermark, [w] the window size, [H]
    the current height and [(f, t)] the returned range: when the
    untruncated window [m + w - 1] lands at or past [H - confirmations],
    [f] is [m] lowered by [min (w - (t - m + 1)) blocks_to_reindex_again]
    and floored at [0]; otherwise [f = m]. *)
Theorem search_range_reindex_margin s A cbn m f t :
  let H := py_or cbn (ethereum_client_current_block_number cfg) in
  let w := block_process_limit (self s) in
  min_watermark (table s) A m →
  get_block_numbers_for_search cfg s A cbn = Some (f, t) →
  (H - confirmations cfg <= m + w - 1 →
     f = Z.max (m - Z.min (w - (t - m + 1)) (blocks_to_reindex_again cfg)) 0)
  ∧ (m + w - 1 < H - confirmations cfg → f = m).
Proof.
  intros H w Hmin Hr.
  pose proof (min_watermark_nonempty _ _ _ Hmin) as HA.
  apply get_from_block_number_min in Hmin; [|done].
  rewrite (range_unfold _ _ _ _ Hmin) in Hr. cbv zeta in Hr. fold H w in Hr.
  destruct (H - m <? confirmations cfg); [done|].
  injection Hr as Hf Ht.
  destruct (m + w >? H - confirmations cfg) eqn:E.
  - apply Z.gtb_lt in E. split; [|lia]. intros _. subst. reflexivity.
  - rewrite Z.gtb_ltb in E. apply Z.ltb_ge in E. split; [lia|].
    intros _. by subst.
Qed.

(** With a window of at least one block, a non-negative reindex margin and
    non-negative watermarks, a returned range is ordered. *)
Lemma range_ordered_when_limited s A cbn f t :
  (∀ a w, table s !! a = Some w → 0 <= w) →
  1 <= block_process_limit (self s) →
  0 <= blocks_to_reindex_again cfg →
  get_block_numbers_for_search cfg s A cbn = Some (f, t) →
  f <= t.
Proof.
  intros Hnn Hw Hre Hr.
  destruct (get_from_block_number (table s) (Some A)) as [m|] eqn:Hm.
  - rewrite (range_unfold _ _ _ _ Hm) in Hr. cbv zeta in Hr.
    apply get_from_block_number_row in Hm as [a Ha]. apply Hnn in Ha.
    destruct (_ <? _) eqn:E1; [done|]. apply Z.ltb_ge in E1.
    injection Hr as <- <-.
    destruct (_ >? _); lia.
  - unfold get_block_numbers_for_search in Hr. by rewrite Hm in Hr.
Qed.

End Range.

Lemma one_address_nonempty : Demo.one_address ≠ ∅.
Proof. unfold Demo.one_address. set_solver. Qed.

Lemma two_addresses_nonempty : Demo.two_addresses ≠ ∅.
Proof. unfold Demo.two_addresses. set_solver. Qed.

(** [confirmations = 10], window 5, watermark 0, height 12: the upper bound
    is [min 4 2 = 2]. *)
Lemma search_range_upper_bound_witness :
  ∃ f t,
    get_block_numbers_for_search (Demo.cfg 10 0 0 20 12)
      (Demo.state_with 5 {[ "0xA"%string := 0 ]}) Demo.one_address (Some 12)
    = Some (f, t)
    ∧ t = Z.min (0 + 5 - 1) (12 - 10) ∧ t <= 12 - 10.
Proof.
  apply (search_range_upper_bound (Demo.cfg 10 0 0 20 12)
           (Demo.state_with 5 {[ "0xA"%string := 0 ]}) Demo.one_address
           (Some 12) 0).
  - apply get_from_block_number_min; [apply one_address_nonempty|].
    vm_compute. reflexivity.
  - simpl. lia.
Defined.

(** Window 10, margin 3, watermark 20, height 25: the batch reaches the tip
    with 6 blocks, so [from] is lowered by [min 4 3 = 3]. *)
Lemma search_range_reindex_margin_witness :
  (25 - 0 <= 20 + 10 - 1 →
     17 = Z.max (20 - Z.min (10 - (25 - 20 + 1)) 3) 0)
  ∧ (20 + 10 - 1 < 25 - 0 → 17 = 20).
Proof.
  apply (search_range_reindex_margin (Demo.cfg 0 0 3 20 25)
           (Demo.state_with 10 {[ "0xA"%string := 20 ]}) Demo.one_address
           (Some 25) 20 17 25).
  - apply get_from_block_number_min; [apply one_address_nonempty|].
    vm_compute. reflexivity.
  - vm_compute. reflexivity.
Defined.

(** Claim C7 (code defect).  The constructor documents
    [block_process_limit = 0] as "no limit", but the calculator does not
    treat [0] specially: with a window of 0, watermark 5 and height 10 it
    returns the range [(5, 4)], whose [from] exceeds its [to]. *)
Theorem unlimited_window_inverts_range :
  get_block_numbers_for_search (Demo.cfg 0 0 0 20 10)
    (Demo.state_with 0 {[ "0xA"%string := 5 ]}) Demo.one_address (Some 10)
  = Some (5, 4)
  ∧ ¬ (5 <= 4).
Proof. split; [vm_compute; reflexivity | lia]. Qed.

(** ** Checkpointer *)

Lemma lookup_rows_to_update (A : gset string) f t' (rows : gmap string Z)
    a w :
  rows_to_update A f t' rows !! a = Some w
  ↔ a ∈ A ∧ rows !! a = Some w ∧ f <= w < t'.
Proof.
  unfold rows_to_update. rewrite map_lookup_filter_Some. simpl. tauto.
Qed.

Lemma lookup_queryset_update (A : gset string) f t' (rows : gmap string Z)
    a :
  (queryset_update A f t' rows).2 !! a =
  if decide (is_Some (rows_to_update A f t' rows !! a)) then Some t'
  else rows !! a.
Proof.
  unfold queryset_update. simpl. rewrite lookup_union, lookup_fmap.
  destruct (rows_to_update A f t' rows !! a) as [w|] eqn:E; simpl.
  - destruct (decide (is_Some (Some w))) as [|Hd];
      [by destruct (rows !! a)|]. exfalso. eauto.
  - destruct (decide (is_Some (@None Z))) as [Hd|];
      [by destruct Hd|]. by destruct (rows !! a).
Qed.

(** ** One batch *)

Section Batch.

Context {World Element Processed : Type}.
Variable cfg : config.
Variable pl : @pipeline World Element Processed.
Implicit Types s : @state World.

(** The step when the range exists and the [try] block returns. *)
Lemma process_addresses_committing s A cbn f t elems eng :
  let H := py_or cbn (ethereum_client_current_block_number cfg) in
  let n := size (rows_to_update A f (t + 1) (table s)) in
  A ≠ ∅ →
  get_block_numbers_for_search cfg s A cbn = Some (f, t) →
  find_and_process pl A f t H (self s) = (Return elems, eng) →
  process_addresses cfg pl A cbn s =
    (if (n =? 0)%nat then Raise ValueError
     else Return (elems, Some f, t, t =? H - confirmations cfg),
     {| self := eng;
        table := (queryset_update A f (t + 1) (table s)).2;
        trace := trace s ++ batch_events A (table s) f t |}).
Proof.
  intros H n HA Hr Hf. unfold process_addresses.
  destruct (decide (A = ∅)); [done|].
  rewrite range_py_or, Hr. fold H. unfold lift. simpl. rewrite Hf.
  unfold ibind, update_monitored_addresses, queryset_update, batch_events.
  simpl. fold n.
  destruct (bool_decide (n = size A)); simpl;
    destruct (n =? 0)%nat; unfold iraise, iret; simpl;
    rewrite <- ?app_assoc; reflexivity.
Qed.

(** The step when the calculator yields no range. *)
Lemma process_addresses_without_range s A cbn :
  A ≠ ∅ →
  get_block_numbers_for_search cfg s A cbn = None →
  process_addresses cfg pl A cbn s =
    (Return ([], None, py_or cbn (ethereum_client_current_block_number cfg),
             true),
     {| self := self s; table := table s;
        trace := trace s ++
          [QueryMin (Some A) (get_from_block_number (table s) (Some A))] |}).
Proof.
  intros HA Hr. unfold process_addresses.
  destruct (decide (A = ∅)); [done|].
  by rewrite range_py_or, Hr.
Qed.

(** The step when the [try] block raises: the window is reset for the
    classes of the [except] clause and left alone for any other class. *)
Lemma process_addresses_raising s A cbn f t e eng :
  A ≠ ∅ →
  get_block_numbers_for_search cfg s A cbn = Some (f, t) →
  find_and_process pl A f t
    (py_or cbn (ethereum_client_current_block_number cfg)) (self s)
  = (Raise e, eng) →
  process_addresses cfg pl A cbn s =
    (Raise e,
     {| self := if transient e
                then {| block_process_limit := 1; world := world eng |}
                else eng;
        table := table s;
        trace := trace s ++
          [QueryMin (Some A) (get_from_block_number (table s) (Some A))]
          ++ (if transient e then [LogLimitReset] else []) |}).
Proof.
  intros HA Hr Hf. unfold process_addresses.
  destruct (decide (A = ∅)); [done|].
  rewrite range_py_or, Hr. unfold lift. simpl. rewrite Hf.
  destruct (transient e); [|done].
  unfold ibind, set_block_process_limit, emit, iraise. simpl.
  by rewrite <- app_assoc.
Qed.

(** Claim C10.  For a non-empty address set for which the calculator
    yields no range, the step returns the empty list, no first block, the
    current height itself (not reduced by the confirmations) as last block
    and the flag [True]; the table is left as it was and the only
    operation sent to it is the minimum query. *)
Theorem process_addresses_no_range s A cbn :
  let H := py_or cbn (ethereum_client_current_block_number cfg) in
  A ≠ ∅ →
  get_block_numbers_for_search cfg s A cbn = None →
  process_addresses cfg pl A cbn s =
    (Return ([], None, H, true),
     {| self := self s; table := table s;
        trace := trace s ++
          [QueryMin (Some A) (get_from_block_number (table s) (Some A))] |}).
Proof.
  intros H HA Hr. unfold process_addresses.
  destruct (decide (A = ∅)); [done|].
  by rewrite range_py_or, Hr.
Qed.

(** The two ways of getting no range for a non-empty address set. *)
Lemma no_range_iff s A cbn :
  A ≠ ∅ →
  get_block_numbers_for_search cfg s A cbn = None
  ↔ (∀ a, a ∈ A → table s !! a = None)
    ∨ ∃ m, min_watermark (table s) A m
           ∧ py_or cbn (ethereum_client_current_block_number cfg) - m
             < confirmations cfg.
Proof.
  intros HA.
  destruct (get_from_block_number (table s) (Some A)) as [m|] eqn:Hm.
  - rewrite (range_unfold _ _ _ _ _ Hm). cbv zeta.
    apply get_from_block_number_min in Hm; [|done].
    destruct (_ <? _) eqn:E; [apply Z.ltb_lt in E|apply Z.ltb_ge in E].
    + split; [|done]. intros _. right. by exists m.
    + split; [done|]. intros [Hnone|(m' & Hm' & Hlt)].
      * destruct Hm as [(a & Ha & Hw) _]. rewrite (Hnone a Ha) in Hw. done.
      * assert (m' = m) as ->; [|lia].
        apply get_from_block_number_min in Hm, Hm'; [|done..]. congruence.
  - unfold get_block_numbers_for_search. rewrite Hm.
    split; [|done]. intros _. left.
    by apply (get_from_block_number_None _ _ HA).
Qed.

(** Claim C2.  When the [try] block of a step raises one of the five
    transient exception classes, the step sets [block_process_limit] to 1
    and raises the same exception; the table is unchanged, no update is
    sent to it, and the [try] block has run once. *)
Theorem process_addresses_transient_failure s A cbn f t e eng :
  let H := py_or cbn (ethereum_client_current_block_number cfg) in
  A ≠ ∅ →
  get_block_numbers_for_search cfg s A cbn = Some (f, t) →
  find_and_process pl A f t H (self s) = (Raise e, eng) →
  transient e = true →
  process_addresses cfg pl A cbn s =
    (Raise e,
     {| self := {| block_process_limit := 1; world := world eng |};
        table := table s;
        trace := trace s ++
          [QueryMin (Some A) (get_from_block_number (table s) (Some A));
           LogLimitReset] |}).
Proof.
  intros H HA Hr Hf He. unfold process_addresses.
  destruct (decide (A = ∅)); [done|].
  rewrite range_py_or, Hr. fold H. unfold lift. simpl. rewrite Hf, He.
  unfold ibind, set_block_process_limit, emit, iraise. simpl.
  by rewrite <- app_assoc.
Qed.

(** Claim C1, as the code has it.  A commit of the range [(f, t)] over
    the address set [A] selects exactly the rows of [A] whose watermark is
    in [[f, t + 1)], sets those to [t + 1], leaves every other row alone
    and sends one update to the table.  The step raises [ValueError]
    when no row was selected, and the loops of [start] stop there.  When
    some but not all rows were selected, a warning is logged and the step
    returns normally. *)
Theorem process_addresses_commit s A cbn f t elems eng :
  let H := py_or cbn (ethereum_client_current_block_number cfg) in
  let selected := rows_to_update A f (t + 1) (table s) in
  let n := size selected in
  let r := process_addresses cfg pl A cbn s in
  A ≠ ∅ →
  get_block_numbers_for_search cfg s A cbn = Some (f, t) →
  find_and_process pl A f t H (self s) = (Return elems, eng) →
  (∀ a w, selected !! a = Some w
          ↔ a ∈ A ∧ table s !! a = Some w ∧ f <= w < t + 1)
  ∧ (∀ a, table r.2 !! a =
          if decide (is_Some (selected !! a)) then Some (t + 1)
          else table s !! a)
  ∧ trace r.2 =
      trace s ++
        [QueryMin (Some A) (get_from_block_number (table s) (Some A));
         Update A f (t + 1) n]
        ++ (if bool_decide (n = size A) then []
            else [LogPossibleReorg n (size A) f (t + 1)])
  ∧ (n = 0%nat →
     r.1 = Raise ValueError
     ∧ ∀ fuel l bump,
         cbn = Some (ethereum_client_current_block_number cfg) →
         almost_updated_loop cfg pl (S fuel) A
           (ethereum_client_current_block_number cfg) l s
         = Some (Raise ValueError, r.2)
         ∧ not_updated_loop cfg pl bump (S fuel) A
             (ethereum_client_current_block_number cfg) l s
           = Some (Raise ValueError, r.2))
  ∧ (n ≠ 0%nat →
     r.1 = Return (elems, Some f, t, t =? H - confirmations cfg)).
Proof.
  intros H selected n r HA Hr Hf.
  pose proof (process_addresses_committing s A cbn f t elems eng HA Hr Hf)
    as Hrun.
  cbv zeta in Hrun. fold H selected n r in Hrun.
  split; [intros a w; apply lookup_rows_to_update|].
  rewrite Hrun. simpl. split; [intros a; apply lookup_queryset_update|].
  split; [done|]. split.
  - intros Hn. rewrite Hn. split; [done|].
    intros fuel l bump ->. simpl. fold r. rewrite Hrun, Hn. done.
  - intros Hn. apply Nat.eqb_neq in Hn. by rewrite Hn.
Qed.

End Batch.

(** [confirmations = 10], watermark 5, height 12: the head is within the
    confirmations of the watermark, and the reported last block is 12. *)
Lemma process_addresses_no_range_witness :
  process_addresses (Demo.cfg 10 0 0 20 12) Demo.timing_out Demo.one_address
    (Some 12) (Demo.state_with 5 {[ "0xA"%string := 5 ]})
  = (Return ([], None, 12, true),
     {| self := Demo.engine_with 5;
        table := {[ "0xA"%string := 5 ]};
        trace := [QueryMin (Some Demo.one_address) (Some 5)] |}).
Proof.
  rewrite (process_addresses_no_range (Demo.cfg 10 0 0 20 12) Demo.timing_out
             (Demo.state_with 5 {[ "0xA"%string := 5 ]}) Demo.one_address
             (Some 12)).
  - vm_compute. reflexivity.
  - apply one_address_nonempty.
  - vm_compute. reflexivity.
Defined.

(** The fetch times out on the range [(0, 9)]: the window drops from 10 to
    1 and the row keeps its watermark. *)
Lemma process_addresses_transient_failure_witness :
  process_addresses (Demo.cfg 0 0 0 20 50) Demo.timing_out Demo.one_address
    (Some 50) (Demo.state_with 10 {[ "0xA"%string := 0 ]})
  = (Raise Timeout,
     {| self := {| block_process_limit := 1; world := 1 |};
        table := {[ "0xA"%string := 0 ]};
        trace := [QueryMin (Some Demo.one_address) (Some 0);
                  LogLimitReset] |}).
Proof.
  rewrite (process_addresses_transient_failure (Demo.cfg 0 0 0 20 50)
             Demo.timing_out (Demo.state_with 10 {[ "0xA"%string := 0 ]})
             Demo.one_address (Some 50) 0 9 Timeout
             {| block_process_limit := 10; world := 1 |}).
  - vm_compute. reflexivity.
  - apply one_address_nonempty.
  - vm_compute. reflexivity.
  - vm_compute. reflexivity.
  - reflexivity.
Defined.

(** Claim C1 as stated fails: two addresses with watermarks 5 and 100,
    range [(5, 9)].  One row of two is updated, and the step returns
    normally instead of raising. *)
Lemma partial_commit_is_not_an_error :
  let r := process_addresses (Demo.cfg 0 0 0 20 20)
             (Demo.throttled (Demo.cfg 0 0 0 20 20)) Demo.two_addresses
             (Some 20) (Demo.state_with 5 Demo.two_rows) in
  r.1 = Return ([tt; tt], Some 5, 9, false)
  ∧ Update Demo.two_addresses 5 10 1 ∈ trace r.2
  ∧ (1 ≠ size Demo.two_addresses)%nat.
Proof.
  split; [vm_compute; reflexivity|]. split.
  - vm_compute. apply list_elem_of_further, list_elem_of_here.
  - vm_compute. lia.
Qed.

(** The same commit: the row at 5 moves to 10, the row at 100 stays. *)
Lemma process_addresses_commit_witness :
  let r := process_addresses (Demo.cfg 0 0 0 20 20)
             (Demo.throttled (Demo.cfg 0 0 0 20 20)) Demo.two_addresses
             (Some 20) (Demo.state_with 5 Demo.two_rows) in
  table r.2 !! "0xA"%string = Some 10
  ∧ table r.2 !! "0xB"%string = Some 100.
Proof.
  pose proof (process_addresses_commit (Demo.cfg 0 0 0 20 20)
                (Demo.throttled (Demo.cfg 0 0 0 20 20))
                (Demo.state_with 5 Demo.two_rows) Demo.two_addresses
                (Some 20) 5 9 [tt; tt]
                {| block_process_limit := 10; world := 0 |}
                two_addresses_nonempty) as H.
  cbv zeta in H.
  destruct H as (_ & Htab & _); [vm_compute; reflexivity..|].
  cbv zeta. rewrite !Htab. split; vm_compute; reflexivity.
Defined.

(** ** Adaptive throttle *)

Section Throttle.

Context {World Element Processed : Type}.
Variable time_time : World → Z.
Variable cfg : config.
Variable pl : @pipeline World Element Processed.

(** Claim C5.  When [body] returns, the context manager leaves the window
    as [body] left it unless auto-tuning is on and the window of the step,
    [1 + t - f], equals [block_process_limit] on entry.  In that case,
    with [d] the measured duration and [w] the window: the new value [v]
    is [max (w // 2) 1] for [d > 30], [max (w - 20) 1] for
    [30 >= d > 10], [w * 2] for [d < 2], [w + 20] for [2 <= d < 5] and
    [w] for [5 <= d <= 10]; then [v] is replaced by the configured
    maximum when that maximum is not [0] and [v] exceeds it. *)
Theorem auto_adjust_block_limit_rule {A} (body : strategy A)
    (e e' : @engine World) (a : A) f t :
  let d := time_time (world e') - time_time (world e) in
  let w := block_process_limit e' in
  let r := auto_adjust_block_limit time_time cfg f t body e in
  body e = (Return a, e') →
  r.1 = Return a ∧ world r.2 = world e'
  ∧ (¬ (block_auto_process_limit cfg = true
        ∧ 1 + t - f = block_process_limit e) →
     block_process_limit r.2 = w)
  ∧ (block_auto_process_limit cfg = true
     ∧ 1 + t - f = block_process_limit e →
     ∃ v,
       ((30 < d → v = Z.max (w / 2) 1)
        ∧ (10 < d <= 30 → v = Z.max (w - 20) 1)
        ∧ (d < 2 → v = w * 2)
        ∧ (2 <= d < 5 → v = w + 20)
        ∧ (5 <= d <= 10 → v = w))
       ∧ (block_process_limit_max cfg ≠ 0 ∧ block_process_limit_max cfg < v →
          block_process_limit r.2 = block_process_limit_max cfg)
       ∧ (¬ (block_process_limit_max cfg ≠ 0
             ∧ block_process_limit_max cfg < v) →
          block_process_limit r.2 = v)).
Proof.
  intros d w r Hb. unfold r, auto_adjust_block_limit.
  destruct (block_auto_process_limit cfg) eqn:Ea; simpl.
  - destruct (1 + t - f =? block_process_limit e) eqn:Ec; simpl; rewrite Hb.
    + apply Z.eqb_eq in Ec. simpl.
      split; [done|]. split; [done|]. split; [intros []; by split|].
      intros _. fold d w. exists (adjust_for_delta d w). split.
      * unfold adjust_for_delta.
        destruct (d >? 30) eqn:E1;
          [apply Z.gtb_lt in E1
          |rewrite Z.gtb_ltb in E1; apply Z.ltb_ge in E1].
        { repeat split; intros; try lia; reflexivity. }
        destruct (d >? 10) eqn:E2;
          [apply Z.gtb_lt in E2
          |rewrite Z.gtb_ltb in E2; apply Z.ltb_ge in E2].
        { repeat split; intros; try lia; reflexivity. }
        destruct (d <? 2) eqn:E3; [apply Z.ltb_lt in E3|apply Z.ltb_ge in E3].
        { repeat split; intros; try lia; reflexivity. }
        destruct (d <? 5) eqn:E4; [apply Z.ltb_lt in E4|apply Z.ltb_ge in E4].
        { repeat split; intros; try lia; reflexivity. }
        repeat split; intros; try lia; reflexivity.
      * unfold clamp_to_max.
        destruct (block_process_limit_max cfg =? 0) eqn:E0; simpl.
        { apply Z.eqb_eq in E0. split; [intros [? _]; done|done]. }
        apply Z.eqb_neq in E0.
        destruct (_ >? _) eqn:E1;
          [apply Z.gtb_lt in E1
          |rewrite Z.gtb_ltb in E1; apply Z.ltb_ge in E1].
        { split; [done|]. intros Hn. exfalso. apply Hn. by split. }
        split; [intros [_ ?]; lia|done].
    + apply Z.eqb_neq in Ec. simpl.
      split; [done|]. split; [done|]. split; [done|]. intros [_ ?]. done.
  - rewrite Hb. simpl. split; [done|]. split; [done|]. split; [done|].
    intros [? _]. done.
Qed.

Lemma adjust_bounds d w :
  1 <= w → 0 <= block_process_limit_max cfg →
  1 <= clamp_to_max cfg (adjust_for_delta d w)
  ∧ (0 < block_process_limit_max cfg →
     clamp_to_max cfg (adjust_for_delta d w) <= block_process_limit_max cfg).
Proof.
  intros Hw Hmax. unfold clamp_to_max, adjust_for_delta.
  destruct (block_process_limit_max cfg =? 0) eqn:E0; simpl.
  - apply Z.eqb_eq in E0. split; [|lia].
    destruct (d >? 30); [lia|]. destruct (d >? 10); [lia|].
    destruct (d <? 2); [lia|]. destruct (d <? 5); lia.
  - apply Z.eqb_neq in E0.
    destruct (_ >? block_process_limit_max cfg) eqn:E1;
      [apply Z.gtb_lt in E1|rewrite Z.gtb_ltb in E1; apply Z.ltb_ge in E1].
    + lia.
    + split; [|lia].
      destruct (d >? 30); [lia|]. destruct (d >? 10); [lia|].
      destruct (d <? 2); [lia|]. destruct (d <? 5); lia.
Qed.

(** Claim C6, as the code has it.  Let the configured maximum be
    non-negative.  After an adjustment by the throttle that started from a
    window of at least 1, and after the reset that follows a transient
    failure, the window is at least 1, and at most the maximum when the
    maximum is positive. *)
Theorem block_limit_bounds_after_adjustment :
  0 <= block_process_limit_max cfg →
  (∀ (A : Type) (body : strategy A) (e e' : @engine World) (a : A) f t,
     block_auto_process_limit cfg = true →
     1 + t - f = block_process_limit e →
     body e = (Return a, e') →
     1 <= block_process_limit e' →
     let w :=
       block_process_limit
         (auto_adjust_block_limit time_time cfg f t body e).2 in
     1 <= w ∧ (0 < block_process_limit_max cfg →
               w <= block_process_limit_max cfg))
  ∧ (∀ (s : @state World) A cbn f t x eng,
       A ≠ ∅ →
       get_block_numbers_for_search cfg s A cbn = Some (f, t) →
       find_and_process pl A f t
         (py_or cbn (ethereum_client_current_block_number cfg)) (self s)
       = (Raise x, eng) →
       transient x = true →
       let w :=
         block_process_limit (self (process_addresses cfg pl A cbn s).2) in
       1 <= w ∧ (0 < block_process_limit_max cfg →
                 w <= block_process_limit_max cfg)).
Proof.
  intros Hmax. split.
  - intros A body e e' a f t Ha Hc Hb Hw. cbv zeta.
    unfold auto_adjust_block_limit.
    apply Z.eqb_eq in Hc. rewrite Ha, Hc, Hb. simpl.
    by apply adjust_bounds.
  - intros s A cbn f t x eng HA Hr Hf Hx. cbv zeta.
    rewrite (process_addresses_raising cfg pl s A cbn f t x eng HA Hr Hf).
    rewrite Hx. simpl. lia.
Qed.

End Throttle.

(** When the wrapped body raises, the context manager adjusts nothing. *)
Lemma auto_adjust_block_limit_raise {World A} (time_time : World → Z)
    (cfg : config) (body : strategy A) (e e' : @engine World) x f t :
  body e = (Raise x, e') →
  auto_adjust_block_limit time_time cfg f t body e = (Raise x, e').
Proof.
  intros Hb. unfold auto_adjust_block_limit.
  destruct (negb _); by rewrite Hb.
Qed.

(** A full window of 100 blocks fetched in 35 seconds is halved. *)
Lemma auto_adjust_block_limit_rule_witness :
  block_process_limit
    (auto_adjust_block_limit Demo.wall_clock (Demo.cfg 0 0 0 20 1000) 0 99
       Demo.slow_fetch (Demo.engine_with 100)).2 = 50.
Proof.
  destruct (auto_adjust_block_limit_rule Demo.wall_clock
              (Demo.cfg 0 0 0 20 1000) Demo.slow_fetch (Demo.engine_with 100)
              {| block_process_limit := 100; world := 35 |} tt 0 99
              eq_refl) as (_ & _ & _ & Hadj).
  destruct Hadj as (v & (Hhalve & _) & _ & Hv); [by split|].
  rewrite Hv.
  - rewrite Hhalve; [reflexivity|]. vm_compute. reflexivity.
  - intros [Hmax _]. by apply Hmax.
Defined.

(** Claim C6 as stated fails: a window of 0 (documented as "no limit")
    whose step [(5, 4)] is measured at 0 seconds is doubled, to 0. *)
Lemma unlimited_window_stays_zero :
  let c := Demo.cfg 0 0 0 20 10 in
  let e := Demo.engine_with 0 in
  block_auto_process_limit c = true
  ∧ 1 + 4 - 5 = block_process_limit e
  ∧ ¬ (1 <= block_process_limit
              (auto_adjust_block_limit Demo.wall_clock c 5 4 (sret tt) e).2).
Proof. split; [done|]. split; [done|]. vm_compute. by intros H. Qed.

(** A maximum of 100: a full window of 200 fetched at once is doubled and
    then cut back to 100. *)
Lemma block_limit_bounds_after_adjustment_witness :
  let w :=
    block_process_limit
      (auto_adjust_block_limit Demo.wall_clock (Demo.cfg 0 100 0 20 1000) 0 199
         (sret tt) (Demo.engine_with 200)).2 in
  1 <= w ∧ (0 < 100 → w <= 100).
Proof.
  destruct (block_limit_bounds_after_adjustment Demo.wall_clock
              (Demo.cfg 0 100 0 20 1000) Demo.timing_out) as [Hthrottle _].
  - simpl. lia.
  - apply (Hthrottle unit (sret tt) (Demo.engine_with 200)
             (Demo.engine_with 200) tt 0 199); try reflexivity.
    simpl. lia.
Defined.

(** ** Batches of a trace *)

Lemma list_max_app l1 l2 :
  list_max (l1 ++ l2) =
  match list_max l1, list_max l2 with
  | Some a, Some b => Some (Z.max a b)
  | Some a, None => Some a
  | None, o => o
  end.
Proof.
  induction l1 as [|x l1 IH]; simpl.
  - by destruct (list_max l2).
  - fold (list_max (l1 ++ l2)). fold (list_max l1). rewrite IH.
    destruct (list_max l1), (list_max l2); f_equal; lia.
Qed.

Lemma processed_batches_app t tr1 tr2 :
  processed_batches t (tr1 ++ tr2)
  = processed_batches t tr1 ++ processed_batches t tr2.
Proof. apply omap_app. Qed.

Lemma processed_batches_batch_events t A rows f l :
  processed_batches t (batch_events A rows f l) = [].
Proof. unfold batch_events. simpl. by destruct (bool_decide _). Qed.

Lemma elements_of_app b1 b2 :
  elements_of (b1 ++ b2) = elements_of b1 + elements_of b2.
Proof.
  induction b1 as [|x b1 IH]; simpl; [done|].
  fold (elements_of (b1 ++ b2)). fold (elements_of b1). lia.
Qed.

Lemma last_blocks_app b1 b2 :
  last_blocks (b1 ++ b2) = last_blocks b1 ++ last_blocks b2.
Proof. apply fmap_app. Qed.

Lemma option_list_head {A} (l : list A) : option_list (head l) = take 1 l.
Proof. by destruct l. Qed.

(** ** The tiers of a run *)

Section Run.

Context {World Element Processed : Type}.
Variable cfg : config.
Variable pl : @pipeline World Element Processed.
Implicit Types s : @state World.

Local Abbreviation head_block :=
  (ethereum_client_current_block_number cfg).

Lemma process_addresses_Return s A cbn els fo t upd s' :
  let H := py_or cbn (ethereum_client_current_block_number cfg) in
  process_addresses cfg pl A cbn s = (Return (els, fo, t, upd), s') →
  A ≠ ∅
  ∧ ((get_block_numbers_for_search cfg s A cbn = None ∧ fo = None)
     ∨ (∃ f, get_block_numbers_for_search cfg s A cbn = Some (f, t)
        ∧ fo = Some f
        ∧ upd = (t =? H - confirmations cfg)
        ∧ size (rows_to_update A f (t + 1) (table s)) ≠ 0%nat
        ∧ table s' = (queryset_update A f (t + 1) (table s)).2
        ∧ trace s' = trace s ++ batch_events A (table s) f t)).
Proof.
  intros H Hp.
  assert (A ≠ ∅) as HA.
  { intros ->. unfold process_addresses in Hp.
    by destruct (decide (∅ = ∅)). }
  split; [done|].
  destruct (get_block_numbers_for_search cfg s A cbn) as [[f t0]|] eqn:Hr.
  - right.
    destruct (find_and_process pl A f t0 H (self s)) as [[els0|e] eng] eqn:Hf.
    + rewrite (process_addresses_committing cfg pl s A cbn f t0 els0 eng
                 HA Hr Hf) in Hp.
      destruct (_ =? _)%nat eqn:En in Hp; [done|].
      apply Nat.eqb_neq in En. injection Hp as <- <- <- <- <-.
      exists f. done.
    + exfalso. unfold process_addresses in Hp.
      destruct (decide (A = ∅)); [done|].
      rewrite range_py_or, Hr in Hp. fold H in Hp.
      unfold lift in Hp. simpl in Hp. rewrite Hf in Hp.
      by destruct (transient e).
  - left.
    rewrite (process_addresses_without_range cfg pl s A cbn HA Hr) in Hp.
    by injection Hp as <- <- <- <- <-.
Qed.

Lemma tier_inv_min A lo (rows : gmap string Z) :
  A ≠ ∅ → tier_inv cfg A lo rows →
  ∃ m, get_from_block_number rows (Some A) = Some m
       ∧ min_watermark rows A m
       ∧ lo <= m <= head_block - confirmations cfg.
Proof.
  intros HA Hinv.
  destruct (get_from_block_number rows (Some A)) as [m|] eqn:E.
  - exists m. split; [done|].
    apply get_from_block_number_min in E; [|done]. split; [done|].
    destruct E as [(a & Ha & Hw) _].
    destruct (Hinv a Ha) as (w & Hw' & ?). congruence.
  - exfalso. apply set_choose_L in HA as [a Ha].
    rewrite get_from_block_number_None in E by set_solver.
    destruct (Hinv a Ha) as (w & Hw & _). rewrite (E a Ha) in Hw. done.
Qed.

(** A batch of a tier that returns: it has a range, its last block is at
    least the lower bound of the tier, and unless it reached the last
    confirmed block every watermark of the tier is past it afterwards. *)
Lemma batch_step s A lo els fo t upd s' :
  A ≠ ∅ →
  tier_inv cfg A lo (table s) →
  process_addresses cfg pl A (Some head_block) s
    = (Return (els, fo, t, upd), s') →
  ∃ f, fo = Some f
       ∧ lo <= t <= head_block - confirmations cfg
       ∧ trace s' = trace s ++ batch_events A (table s) f t
       ∧ (upd = false → tier_inv cfg A (t + 1) (table s')).
Proof.
  intros HA Hinv Hp.
  apply process_addresses_Return in Hp as [_ Hp]. cbv zeta in Hp.
  destruct (tier_inv_min _ _ _ HA Hinv) as (m & Hm & Hmin & Hlo).
  rewrite (range_unfold _ _ _ _ _ Hm) in Hp. cbv zeta in Hp.
  rewrite !py_or_same in Hp.
  set (H := ethereum_client_current_block_number cfg) in *.
  destruct (H - m <? confirmations cfg) eqn:E1;
    [apply Z.ltb_lt in E1; lia|].
  destruct Hp as [[? _]|(f & Hr & -> & -> & Hn & Htab & Htr)]; [done|].
  exists f. injection Hr as Hf Ht.
  apply map_size_non_empty_iff, map_choose in Hn as (a & w & Hsel).
  apply lookup_rows_to_update in Hsel as (Ha & Hw & Hfw).
  destruct (Hinv a Ha) as (w' & Hw' & Hlow). rewrite Hw in Hw'.
  injection Hw' as <-.
  split; [done|]. split; [lia|]. split; [done|].
  intros Hupd. apply Z.eqb_neq in Hupd.
  assert (f = m) as ->.
  { destruct (_ >? _) eqn:E2 in Hf; [|done].
    apply Z.gtb_lt in E2. lia. }
  intros b Hb. destruct (Hinv b Hb) as (wb & Hwb & Hbb).
  rewrite Htab, lookup_queryset_update.
  destruct (decide _) as [[x Hx]|Hno].
  - exists (t + 1). split; [done|]. fold H. lia.
  - exists wb. split; [done|].
    destruct Hmin as [_ Hmin]. specialize (Hmin b wb Hb Hwb).
    destruct (decide (wb < t + 1)) as [Hlt|]; [|fold H; lia].
    exfalso. apply Hno. exists wb. apply lookup_rows_to_update. done.
Qed.

Lemma tier_inv_exists A (rows : gmap string Z) :
  A ≠ ∅ →
  (∀ a, a ∈ A → ∃ w, rows !! a = Some w
                     ∧ w <= head_block - confirmations cfg) →
  ∃ lo, tier_inv cfg A lo rows.
Proof.
  intros HA Hup.
  destruct (get_from_block_number rows (Some A)) as [m|] eqn:E.
  - exists m. apply get_from_block_number_min in E as [_ Hle]; [|done].
    intros a Ha. destruct (Hup a Ha) as (w & Hw & ?).
    exists w. split; [done|]. split; [by apply (Hle a)|done].
  - apply set_choose_L in HA as [a Ha].
    rewrite get_from_block_number_None in E by set_solver.
    destruct (Hup a Ha) as (w & Hw & _). rewrite (E a Ha) in Hw. done.
Qed.

Lemma tier_inv_almost_updated s :
  let A := get_almost_updated_addresses cfg s head_block in
  A ≠ ∅ → ∃ lo, tier_inv cfg A lo (table s).
Proof.
  intros A HA. apply tier_inv_exists; [done|].
  intros a Ha. unfold A, get_almost_updated_addresses, addresses_of in Ha.
  apply elem_of_dom in Ha as [w Hw].
  apply map_lookup_filter_Some in Hw as [Hw [? ?]]. simpl in *.
  exists w. split; [done|lia].
Qed.

Lemma tier_inv_not_updated s :
  let A := get_not_updated_addresses cfg s head_block in
  A ≠ ∅ → ∃ lo, tier_inv cfg A lo (table s).
Proof.
  intros A HA. apply tier_inv_exists; [done|].
  intros a Ha. unfold A, get_not_updated_addresses, addresses_of in Ha.
  apply elem_of_dom in Ha as [w Hw].
  apply map_lookup_filter_Some in Hw as [Hw ?]. simpl in *.
  exists w. split; [done|lia].
Qed.

(** The second loop with and without its last statement. *)
Lemma not_updated_loop_bump fuel A :
  A ≠ ∅ →
  ∀ l1 l2 s lo,
    tier_inv cfg A lo (table s) →
    same_locals l1 l2 →
    same_outcome
      (not_updated_loop cfg pl py_iadd_one fuel A head_block l1 s)
      (not_updated_loop cfg pl Return fuel A head_block l2 s).
Proof.
  intros HA. induction fuel as [|fuel IH]; intros l1 l2 s lo Hinv Hl; [done|].
  simpl.
  destruct (process_addresses cfg pl A (Some head_block) s)
    as [[[[[els fo] t] upd]|e] s'] eqn:Hp; [|done].
  destruct (batch_step _ _ _ _ _ _ _ _ HA Hinv Hp)
    as (f & -> & _ & _ & Hnext).
  destruct Hl as (Htot & Hsb & Hto). rewrite <- Hsb.
  assert (∃ ns, match start_block l1 with
                | Some b => match py_lt (Some f) (Some b) with
                            | Return true => Return (Some f)
                            | Return false => Return (Some b)
                            | Raise e => Raise e
                            end
                | None => Return (Some f)
                end = Return ns) as [ns ->].
  { destruct (start_block l1) as [b|]; simpl; [destruct (f <? b)|]; eauto. }
  simpl. destruct upd.
  - split; [|done]. repeat split; simpl; congruence.
  - eapply IH.
    + simpl. by apply Hnext.
    + repeat split; simpl; congruence.
Qed.

(** Claim C9.  [start] and [start] without the [from_block_number += 1]
    that ends an iteration of the second loop give the same outcome from
    every state and for every fuel: the same return value or exception and
    the same final state, whose trace lists the operations sent to the
    table. *)
Theorem start_increment_is_dead fuel s :
  start cfg pl fuel s = start_without_increment cfg pl fuel s.
Proof.
  unfold start, start_without_increment, start_with.
  destruct (if decide (get_almost_updated_addresses cfg s head_block = ∅)
            then _ else _) as [[[l|e] s2]|]; [|done|done].
  set (A := get_not_updated_addresses cfg s2 head_block).
  set (s3 := {| self := self s2; table := table s2; trace := _ |}).
  destruct (decide (A = ∅)) as [|HA]; [done|].
  destruct (tier_inv_not_updated s2 HA) as [lo Hinv].
  pose proof (not_updated_loop_bump fuel A HA l l s3 lo Hinv
                ltac:(by repeat split)) as Hsame.
  destruct (not_updated_loop cfg pl py_iadd_one fuel A _ l s3)
    as [[[l1|e1] t1]|];
  destruct (not_updated_loop cfg pl Return fuel A _ l s3)
    as [[[l2|e2] t2]|]; simpl in Hsame; try done.
  - destruct Hsame as [(Htot & Hsb & Hto) ->].
    destruct l1 as [n1 sb1 f1 [t1'|]], l2 as [n2 sb2 f2 t2'];
      simpl in *; subst;
      (destruct (if decide _ then None else to_block_number l) as [lb|];
       [simpl; try destruct (lb <? t1')|]); reflexivity.
  - destruct Hsame as [-> ->]. done.
Qed.

Lemma almost_updated_loop_Return fuel A :
  A ≠ ∅ →
  ∀ l s lo l' s',
    tier_inv cfg A lo (table s) →
    almost_updated_loop cfg pl fuel A head_block l s
      = Some (Return l', s') →
    ∃ evs,
      trace s' = trace s ++ evs
      ∧ processed_batches NotUpdated evs = []
      ∧ total_number_processed_elements l' =
          total_number_processed_elements l
          + elements_of (processed_batches AlmostUpdated evs)
      ∧ start_block l' =
          match start_block l with
          | Some b => Some b
          | None => head (first_blocks (processed_batches AlmostUpdated evs))
          end
      ∧ ∃ L, to_block_number l' = Some L
             ∧ list_max (last_blocks (processed_batches AlmostUpdated evs))
               = Some L
             ∧ lo <= L.
Proof.
  intros HA. induction fuel as [|fuel IH]; intros l s lo l' s' Hinv Hrun;
    [done|].
  simpl in Hrun.
  destruct (process_addresses cfg pl A (Some head_block) s)
    as [[[[[els fo] t] upd]|e] s1] eqn:Hp; [|done].
  destruct (batch_step _ _ _ _ _ _ _ _ HA Hinv Hp)
    as (f & -> & Hlo & Htr & Hnext).
  destruct upd.
  - injection Hrun as <- <-. simpl.
    exists (batch_events A (table s) f t
            ++ [LogProcessed AlmostUpdated (Z.of_nat (length els))
                  (Some f) t]).
    rewrite Htr, <- app_assoc. split; [done|].
    rewrite !processed_batches_app, !processed_batches_batch_events. simpl.
    split; [done|]. split; [lia|]. split; [done|].
    exists t. split; [done|]. split; [done|]. lia.
  - eapply IH in Hrun
      as (evs & Htr' & Hno & Htot & Hsb & L & HL & Hmax & HloL);
      [|simpl; by apply Hnext]. simpl in *.
    exists (batch_events A (table s) f t
            ++ [LogProcessed AlmostUpdated (Z.of_nat (length els))
                  (Some f) t]
            ++ evs).
    rewrite Htr', Htr, <- !app_assoc. split; [done|].
    rewrite !processed_batches_app, !processed_batches_batch_events. simpl.
    split; [done|]. split.
    { rewrite Htot.
      fold (elements_of (processed_batches AlmostUpdated evs)). lia. }
    split; [by destruct (start_block l)|].
    exists L. split; [done|]. split; [|lia].
    fold (list_max (last_blocks (processed_batches AlmostUpdated evs))).
    rewrite Hmax. f_equal. lia.
Qed.

Lemma not_updated_loop_Return fuel A :
  A ≠ ∅ →
  ∀ l s lo l' s',
    tier_inv cfg A lo (table s) →
    not_updated_loop cfg pl py_iadd_one fuel A head_block l s
      = Some (Return l', s') →
    ∃ evs,
      trace s' = trace s ++ evs
      ∧ processed_batches AlmostUpdated evs = []
      ∧ total_number_processed_elements l' =
          total_number_processed_elements l
          + elements_of (processed_batches NotUpdated evs)
      ∧ start_block l' =
          list_min (option_list (start_block l)
                    ++ first_blocks (processed_batches NotUpdated evs))
      ∧ ∃ L, to_block_number l' = Some L
             ∧ list_max (last_blocks (processed_batches NotUpdated evs))
               = Some L
             ∧ lo <= L.
Proof.
  intros HA. induction fuel as [|fuel IH]; intros l s lo l' s' Hinv Hrun;
    [done|].
  simpl in Hrun.
  destruct (process_addresses cfg pl A (Some head_block) s)
    as [[[[[els fo] t] upd]|e] s1] eqn:Hp; [|done].
  destruct (batch_step _ _ _ _ _ _ _ _ HA Hinv Hp)
    as (f & -> & Hlo & Htr & Hnext).
  assert (match start_block l with
          | Some b => match py_lt (Some f) (Some b) with
                      | Return true => Return (Some f)
                      | Return false => Return (Some b)
                      | Raise e => Raise e
                      end
          | None => Return (Some f)
          end = Return (list_min (option_list (start_block l) ++ [f])))
    as Hns.
  { destruct (start_block l) as [b|]; simpl; [|done].
    destruct (f <? b) eqn:E; [apply Z.ltb_lt in E|apply Z.ltb_ge in E];
      do 2 f_equal; lia. }
  rewrite Hns in Hrun. clear Hns. simpl in Hrun.
  destruct upd.
  - injection Hrun as <- <-. simpl.
    exists (batch_events A (table s) f t
            ++ [LogProcessed NotUpdated (Z.of_nat (length els)) (Some f) t]).
    rewrite Htr, <- app_assoc. split; [done|].
    rewrite !processed_batches_app, !processed_batches_batch_events. simpl.
    split; [done|]. split; [lia|]. split; [done|].
    exists t. split; [done|]. split; [done|]. lia.
  - eapply IH in Hrun
      as (evs & Htr' & Hno & Htot & Hsb & L & HL & Hmax & HloL);
      [|simpl; by apply Hnext]. simpl in *.
    exists (batch_events A (table s) f t
            ++ [LogProcessed NotUpdated (Z.of_nat (length els)) (Some f) t]
            ++ evs).
    rewrite Htr', Htr, <- !app_assoc. split; [done|].
    rewrite !processed_batches_app, !processed_batches_batch_events. simpl.
    split; [done|]. split.
    { rewrite Htot.
      fold (elements_of (processed_batches NotUpdated evs)). lia. }
    split.
    { rewrite Hsb. fold (first_blocks (processed_batches NotUpdated evs)).
      destruct (start_block l) as [b|]; simpl; [|done].
      fold (list_min (first_blocks (processed_batches NotUpdated evs))).
      destruct (list_min (first_blocks (processed_batches NotUpdated evs)));
        apply (f_equal Some); lia. }
    exists L. split; [done|]. split; [|lia].
    fold (list_max (last_blocks (processed_batches NotUpdated evs))).
    rewrite Hmax. f_equal. lia.
Qed.

(** What a run that returns reports, in terms of the batches it logged:
    the elements of all batches, and the blocks from the smallest of the
    first block of the first tier's first batch and the first blocks of
    the second tier's batches, to the largest last block of all batches. *)
Lemma start_counts fuel s n b s' :
  start cfg pl fuel s = Some (Return (n, b), s') →
  ∃ evs,
    trace s' = trace s ++ evs
    ∧ let almost := processed_batches AlmostUpdated evs in
      let behind := processed_batches NotUpdated evs in
      n = elements_of (almost ++ behind)
      ∧ b = blocks_between
              (list_min (take 1 (first_blocks almost) ++ first_blocks behind))
              (list_max (last_blocks (almost ++ behind))).
Proof.
  unfold start, start_with.
  set (H := head_block).
  set (A1 := get_almost_updated_addresses cfg s H).
  set (l0 := {| total_number_processed_elements := 0; start_block := None;
                from_block_number := None; to_block_number := None |}).
  set (q1 := [QueryMin None _; QueryBetween _ _ _]).
  set (s1 := {| self := self s; table := table s; trace := trace s ++ q1 |}).
  intros Hrun.
  (* first tier *)
  destruct (if decide (A1 = ∅) then Some (Return l0, s1)
            else almost_updated_loop cfg pl fuel A1 H l0 s1)
    as [[[l1|e] s2]|] eqn:Hfirst; [|done|done].
  assert (∃ evs1,
            trace s2 = trace s1 ++ evs1
            ∧ processed_batches NotUpdated evs1 = []
            ∧ total_number_processed_elements l1
              = elements_of (processed_batches AlmostUpdated evs1)
            ∧ start_block l1
              = head (first_blocks (processed_batches AlmostUpdated evs1))
            ∧ (if decide (A1 = ∅) then None else to_block_number l1)
              = list_max (last_blocks (processed_batches AlmostUpdated evs1)))
    as (evs1 & Htr1 & Hno1 & Htot1 & Hsb1 & Hlast1).
  { destruct (decide (A1 = ∅)) as [|HA1].
    - injection Hfirst as <- <-. exists []. by rewrite app_nil_r.
    - destruct (tier_inv_almost_updated s HA1) as [lo Hinv].
      eapply almost_updated_loop_Return in Hfirst
        as (evs & ? & ? & ? & ? & L & HL & HM & _); [|done|exact Hinv].
      exists evs. rewrite HL, HM. done. }
  set (last1 := if decide (A1 = ∅) then None else to_block_number l1) in *.
  clearbody last1. clear Hfirst.
  (* second tier *)
  set (A2 := get_not_updated_addresses cfg s2 H) in *.
  set (s3 := {| self := self s2; table := table s2;
                trace := trace s2 ++ [QueryUpTo (H - confirmations cfg) A2] |})
    in *.
  destruct (if decide (A2 = ∅) then Some (Return (l1, last1), s3) else _)
    as [[[[l2 last2]|e] s4]|] eqn:Hsecond; [|done|done].
  injection Hrun as <- <- <-.
  assert (∃ evs2,
            trace s4 = trace s3 ++ evs2
            ∧ processed_batches AlmostUpdated evs2 = []
            ∧ total_number_processed_elements l2
              = total_number_processed_elements l1
                + elements_of (processed_batches NotUpdated evs2)
            ∧ start_block l2
              = list_min (option_list (start_block l1)
                  ++ first_blocks (processed_batches NotUpdated evs2))
            ∧ last2
              = list_max (last_blocks (processed_batches AlmostUpdated evs1)
                          ++ last_blocks (processed_batches NotUpdated evs2)))
    as (evs2 & Htr2 & Hno2 & Htot2 & Hsb2 & Hlast2).
  { destruct (decide (A2 = ∅)) as [|HA2].
    - injection Hsecond as <- <- <-. exists []. rewrite !app_nil_r.
      split; [done|]. split; [done|]. split; [simpl; lia|].
      split; [by destruct (start_block l1)|done].
    - destruct (tier_inv_not_updated s2 HA2) as [lo Hinv].
      destruct (not_updated_loop cfg pl py_iadd_one fuel A2 H l1 s3)
        as [[[l2'|e] s4']|] eqn:Hloop; [|done|done].
      eapply not_updated_loop_Return in Hloop
        as (evs & ? & ? & ? & ? & L & HL & HM & _); [|done|exact Hinv].
      exists evs. rewrite list_max_app, HM, <- Hlast1.
      rewrite HL in Hsecond.
      destruct last1 as [lb|]; simpl in Hsecond.
      + destruct (lb <? L) eqn:E;
          [apply Z.ltb_lt in E|apply Z.ltb_ge in E];
          injection Hsecond as <- <- <-;
          (repeat split; try done); f_equal; lia.
      + injection Hsecond as <- <- <-. done. }
  exists (q1 ++ evs1 ++ [QueryUpTo (H - confirmations cfg) A2] ++ evs2).
  split.
  { rewrite Htr2. simpl. rewrite Htr1. simpl. by rewrite <- !app_assoc. }
  cbv zeta.
  rewrite !processed_batches_app, Hno1, Hno2. simpl.
  rewrite !app_nil_r. split.
  - rewrite elements_of_app. lia.
  - rewrite last_blocks_app.
    rewrite <- Hlast2, <- option_list_head, <- Hsb1, <- Hsb2. reflexivity.
Qed.

End Run.

(** Claim C8 (code defect).  Window 10, reindex margin 14, height 25, one
    address at watermark 10, and a strategy that fetches inside the
    throttle.  The address is almost updated, and the first tier runs the
    batches [(10, 19)] and, with the window doubled to 20 and the range
    lowered by the margin, [(6, 25)].  The greatest last block seen is 25
    and the least first block seen is 6, that is 20 blocks, but [start]
    reports 16: the first loop keeps the first block of its first batch
    only.  With [updated_blocks_behind = 0] the same address is handled by
    the second tier, which runs the same two batches and reports 20. *)
Theorem start_underreports_blocks :
  let rows : gmap string Z := {[ "0xA"%string := 10 ]} in
  let near := Demo.cfg 0 0 14 20 25 in
  let far := Demo.cfg 0 0 14 0 25 in
  ∃ s1 s2,
    start near (Demo.throttled near) 10 (Demo.state_with 10 rows)
    = Some (Return (4, 16), s1)
    ∧ processed_batches AlmostUpdated (trace s1)
      = [(2, Some 10, 19); (2, Some 6, 25)]
    ∧ processed_batches NotUpdated (trace s1) = []
    ∧ start far (Demo.throttled far) 10 (Demo.state_with 10 rows)
      = Some (Return (4, 20), s2)
    ∧ processed_batches AlmostUpdated (trace s2) = []
    ∧ processed_batches NotUpdated (trace s2)
      = [(2, Some 10, 19); (2, Some 6, 25)]
    ∧ blocks_between (list_min [10; 6]) (list_max [19; 25]) = 20.
Proof.
  eexists _, _. split; [vm_compute; reflexivity|].
  split; [vm_compute; reflexivity|].
  split; [vm_compute; reflexivity|].
  split; [vm_compute; reflexivity|].
  split; [vm_compute; reflexivity|].
  split; vm_compute; reflexivity.
Qed.

(** * Further properties of the engine *)

(** ** Minimum query and range calculator *)

(** [get_from_block_number] over a non-empty address set returns the
    smallest watermark among the rows of that set, and [None] exactly when
    none of the addresses has a row. *)
Theorem get_from_block_number_is_minimum (rows : gmap string Z)
    (A : gset string) :
  A ≠ ∅ →
  (∀ m, get_from_block_number rows (Some A) = Some m ↔ min_watermark rows A m)
  ∧ (get_from_block_number rows (Some A) = None
     ↔ ∀ a, a ∈ A → rows !! a = None).
Proof.
  intros HA. split.
  - intros m. by apply get_from_block_number_min.
  - by apply get_from_block_number_None.
Qed.

Lemma get_from_block_number_is_minimum_witness :
  min_watermark Demo.two_rows Demo.two_addresses 5.
Proof.
  apply (get_from_block_number_is_minimum Demo.two_rows Demo.two_addresses
           two_addresses_nonempty).
  vm_compute. reflexivity.
Defined.

(** An empty address set is falsy: [get_from_block_number] then answers
    for the whole table, as it does without an argument.  The answer is
    [None] only on an empty table, and otherwise the smallest watermark of
    all rows. *)
Theorem get_from_block_number_whole_table (rows : gmap string Z) :
  get_from_block_number rows (Some ∅) = get_from_block_number rows None
  ∧ (get_from_block_number rows None = None ↔ rows = ∅)
  ∧ ∀ m, get_from_block_number rows None = Some m
         ↔ (∃ a, rows !! a = Some m) ∧ ∀ a w, rows !! a = Some w → m <= w.
Proof.
  unfold get_from_block_number. rewrite decide_True by done.
  split; [done|]. split; [apply queryset_min_None|].
  intros m. apply queryset_min_Some.
Qed.

Section RangeShape.

Context {World : Type}.
Variable cfg : config.
Implicit Types s : @state World.

(** A returned range never covers more blocks than [block_process_limit],
    the reindexed blocks included. *)
Theorem search_range_within_window s A cbn f t :
  get_block_numbers_for_search cfg s A cbn = Some (f, t) →
  t - f + 1 <= block_process_limit (self s).
Proof.
  intros Hr.
  destruct (get_from_block_number (table s) (Some A)) as [m|] eqn:Hm.
  - rewrite (range_unfold _ _ _ _ _ Hm) in Hr. cbv zeta in Hr.
    destruct (_ <? _); [done|]. injection Hr as <- <-.
    destruct (_ >? _); lia.
  - unfold get_block_numbers_for_search in Hr. by rewrite Hm in Hr.
Qed.

(** With a non-negative minimum watermark [m] and a non-negative reindex
    margin, the range starts at [m] or below it, by at most the margin, and
    never below block [0]: no block between the watermark and [to] is
    skipped. *)
Theorem search_range_from_bounds s A cbn m f t :
  min_watermark (table s) A m →
  0 <= m →
  0 <= blocks_to_reindex_again cfg →
  get_block_numbers_for_search cfg s A cbn = Some (f, t) →
  0 <= f ∧ m - blocks_to_reindex_again cfg <= f <= m.
Proof.
  intros Hmin Hm0 HR Hr.
  pose proof (min_watermark_nonempty _ _ _ Hmin) as HA.
  apply get_from_block_number_min in Hmin; [|done].
  rewrite (range_unfold _ _ _ _ _ Hmin) in Hr. cbv zeta in Hr.
  destruct (_ <? _); [done|]. injection Hr as <- <-.
  destruct (_ >? _); lia.
Qed.

End RangeShape.

Lemma demo_min_watermark_20 :
  min_watermark {[ "0xA"%string := 20 ]} Demo.one_address 20.
Proof.
  apply get_from_block_number_min; [apply one_address_nonempty|].
  vm_compute. reflexivity.
Qed.

Lemma search_range_within_window_witness :
  25 - 17 + 1
  <= block_process_limit
       (self (Demo.state_with 10 {[ "0xA"%string := 20 ]})).
Proof.
  apply (search_range_within_window (Demo.cfg 0 0 3 20 25)
           (Demo.state_with 10 {[ "0xA"%string := 20 ]}) Demo.one_address
           (Some 25) 17 25).
  vm_compute. reflexivity.
Defined.

Lemma search_range_from_bounds_witness : 0 <= 17 ∧ 20 - 3 <= 17 <= 20.
Proof.
  apply (search_range_from_bounds (Demo.cfg 0 0 3 20 25)
           (Demo.state_with 10 {[ "0xA"%string := 20 ]}) Demo.one_address
           (Some 25) 20 17 25).
  - apply demo_min_watermark_20.
  - lia.
  - simpl. lia.
  - vm_compute. reflexivity.
Defined.

Lemma range_ordered_when_limited_witness : 17 <= 25.
Proof.
  apply (range_ordered_when_limited (Demo.cfg 0 0 3 20 25)
           (Demo.state_with 10 {[ "0xA"%string := 20 ]}) Demo.one_address
           (Some 25) 17 25).
  - intros a w Hw. unfold Demo.state_with in Hw. simpl in Hw.
    apply lookup_singleton_Some in Hw as [_ <-]. lia.
  - simpl. lia.
  - simpl. lia.
  - vm_compute. reflexivity.
Defined.

Lemma no_range_iff_witness :
  (∀ a, a ∈ Demo.one_address →
        table (Demo.state_with 5 {[ "0xA"%string := 5 ]}) !! a = None)
  ∨ ∃ m, min_watermark
           (table (Demo.state_with 5 {[ "0xA"%string := 5 ]}))
           Demo.one_address m
         ∧ py_or (Some 12)
             (ethereum_client_current_block_number (Demo.cfg 10 0 0 20 12))
           - m
           < confirmations (Demo.cfg 10 0 0 20 12).
Proof.
  apply (no_range_iff (Demo.cfg 10 0 0 20 12)
           (Demo.state_with 5 {[ "0xA"%string := 5 ]}) Demo.one_address
           (Some 12) one_address_nonempty).
  vm_compute. reflexivity.
Defined.

(** ** The two tiers *)

Section Tiers.

Context {World : Type}.
Variable cfg : config.
Implicit Types s : @state World.

Lemma elem_of_not_updated s cur a :
  a ∈ get_not_updated_addresses cfg s cur
  ↔ ∃ w, table s !! a = Some w ∧ w <= cur - confirmations cfg.
Proof.
  unfold get_not_updated_addresses, addresses_of.
  rewrite elem_of_dom. unfold is_Some.
  setoid_rewrite map_lookup_filter_Some. simpl.
  split; intros (w & ? & ?); exists w; split; [done|lia|done|lia].
Qed.

Lemma elem_of_almost_updated s cur a :
  a ∈ get_almost_updated_addresses cfg s cur
  ↔ ∃ w, table s !! a = Some w
         ∧ Z.max (py_or (get_from_block_number (table s) None) 0)
                 (cur - updated_blocks_behind cfg) <= w
           < cur - confirmations cfg.
Proof.
  unfold get_almost_updated_addresses, addresses_of.
  rewrite elem_of_dom. unfold is_Some.
  setoid_rewrite map_lookup_filter_Some. simpl.
  split; intros (w & ? & ?); exists w; split; [done|lia|done|lia].
Qed.

(** Read from the same table, the almost updated addresses are among the
    not updated ones: the two tiers are not disjoint. *)
Theorem almost_updated_subset_not_updated s cur :
  get_almost_updated_addresses cfg s cur
  ⊆ get_not_updated_addresses cfg s cur.
Proof.
  intros a. rewrite elem_of_almost_updated, elem_of_not_updated.
  intros (w & Hw & ?). exists w. split; [done|lia].
Qed.

End Tiers.

(** ** Watermarks under the conditional update *)

Lemma advances_refl rows : advances rows rows.
Proof. intros a. destruct (rows !! a); [lia|done]. Qed.

Lemma advances_trans r1 r2 r3 :
  advances r1 r2 → advances r2 r3 → advances r1 r3.
Proof.
  intros H12 H23 a. specialize (H12 a). specialize (H23 a).
  destruct (r1 !! a), (r2 !! a), (r3 !! a); try done. lia.
Qed.

Lemma advances_lower_bound r1 r2 lo :
  advances r1 r2 →
  (∀ a w, r1 !! a = Some w → lo <= w) →
  ∀ a w, r2 !! a = Some w → lo <= w.
Proof.
  intros Hadv Hlo a w Hw. specialize (Hadv a). rewrite Hw in Hadv.
  destruct (r1 !! a) as [w0|] eqn:E; [|done].
  specialize (Hlo a w0 E). lia.
Qed.

Lemma queryset_update_advances A f t' rows :
  advances rows (queryset_update A f t' rows).2.
Proof.
  intros a. rewrite lookup_queryset_update.
  destruct (decide _) as [[w Hw]|_].
  - apply lookup_rows_to_update in Hw as (_ & -> & ?). lia.
  - destruct (rows !! a); [lia|done].
Qed.

Lemma queryset_update_outside (A : gset string) f t' rows a :
  a ∉ A → (queryset_update A f t' rows).2 !! a = rows !! a.
Proof.
  intros Ha. rewrite lookup_queryset_update.
  destruct (decide _) as [[w Hw]|_]; [|done].
  apply lookup_rows_to_update in Hw as (? & _). done.
Qed.

Lemma queryset_update_nothing (A : gset string) f t' rows :
  size (rows_to_update A f t' rows) = 0%nat →
  (queryset_update A f t' rows).2 = rows.
Proof.
  intros Hn. apply map_size_empty_iff in Hn.
  unfold queryset_update. simpl.
  by rewrite Hn, fmap_empty, (left_id_L ∅ (∪)).
Qed.

Lemma dom_rows_to_update (A : gset string) f t' (rows : gmap string Z) :
  dom (rows_to_update A f t' rows) ⊆ A.
Proof.
  intros a [w Hw]%elem_of_dom.
  by apply lookup_rows_to_update in Hw as (? & _).
Qed.

Lemma rows_to_update_again (A : gset string) f t' (rows : gmap string Z) :
  rows_to_update A f t' (queryset_update A f t' rows).2 = ∅.
Proof.
  apply map_empty. intros a.
  destruct (rows_to_update A f t' (queryset_update A f t' rows).2 !! a)
    as [w|] eqn:E; [|done].
  exfalso. apply lookup_rows_to_update in E as (Ha & Hw & Hr).
  rewrite lookup_queryset_update in Hw.
  destruct (decide _) as [_|Hno].
  - injection Hw as <-. lia.
  - apply Hno. exists w. by apply lookup_rows_to_update.
Qed.

Lemma queryset_update_again (A : gset string) f t' (rows : gmap string Z) :
  (queryset_update A f t' (queryset_update A f t' rows).2).2
  = (queryset_update A f t' rows).2.
Proof.
  apply queryset_update_nothing. by rewrite rows_to_update_again.
Qed.

Section Checkpointer.

Context {World : Type}.
Implicit Types s : @state World.

Lemma update_monitored_addresses_table s A f t :
  table (update_monitored_addresses A f t s).2
  = (queryset_update A f (t + 1) (table s)).2.
Proof.
  unfold update_monitored_addresses. simpl. by destruct (bool_decide _).
Qed.

Lemma update_monitored_addresses_result s A f t :
  (update_monitored_addresses A f t s).1
  = Return (size (rows_to_update A f (t + 1) (table s))).
Proof. reflexivity. Qed.

(** [update_monitored_addresses] never lowers a watermark and never adds
    or removes a row; rows of other addresses, and rows already at
    [to + 1] or beyond, keep their watermark; the engine's window is not
    touched. *)
Theorem update_monitored_addresses_monotone s A f t :
  let r := update_monitored_addresses A f t s in
  advances (table s) (table r.2)
  ∧ (∀ a, a ∉ A → table r.2 !! a = table s !! a)
  ∧ (∀ a w, table s !! a = Some w → t + 1 <= w → table r.2 !! a = Some w)
  ∧ self r.2 = self s.
Proof.
  cbv zeta. rewrite update_monitored_addresses_table.
  split; [apply queryset_update_advances|].
  split; [intros a Ha; by apply queryset_update_outside|].
  split.
  - intros a w Hw Hle. rewrite lookup_queryset_update.
    destruct (decide _) as [[x Hx]|_]; [|done].
    apply lookup_rows_to_update in Hx as (_ & Hx & ?).
    rewrite Hw in Hx. injection Hx as <-. lia.
  - unfold update_monitored_addresses. simpl. by destruct (bool_decide _).
Qed.

(** The number returned by [update_monitored_addresses] is at most the
    number of addresses, and equals it exactly when every address has a
    row whose watermark is in [[from, to + 1)]; the warning is logged in
    every other case. *)
Theorem update_monitored_addresses_count s A f t :
  let r := update_monitored_addresses A f t s in
  ∃ n, r.1 = Return n
       ∧ (n <= size A)%nat
       ∧ (n = size A
          ↔ ∀ a, a ∈ A → ∃ w, table s !! a = Some w ∧ f <= w < t + 1)
       ∧ trace r.2 =
           trace s ++ [Update A f (t + 1) n]
           ++ (if bool_decide (n = size A) then []
               else [LogPossibleReorg n (size A) f (t + 1)]).
Proof.
  unfold update_monitored_addresses. simpl.
  set (sel := rows_to_update A f (t + 1) (table s)).
  exists (size sel).
  assert (size sel = size (dom sel)) as Hsz by by rewrite size_dom.
  pose proof (dom_rows_to_update A f (t + 1) (table s)) as Hsub.
  fold sel in Hsub.
  split; [by destruct (bool_decide (size sel = size A))|].
  split; [rewrite Hsz; by apply subseteq_size|].
  split.
  - split.
    + intros Heq a Ha.
      assert (dom sel = A) as Hdom.
      { apply set_subseteq_size_eq; [done|]. rewrite <- Hsz. lia. }
      rewrite <- Hdom in Ha. apply elem_of_dom in Ha as [w Hw].
      apply lookup_rows_to_update in Hw as (_ & ? & ?). eauto.
    + intros Hall. rewrite Hsz. f_equal. apply set_eq. intros a.
      split; [apply Hsub|]. intros Ha.
      destruct (Hall a Ha) as (w & Hw & Hr).
      apply elem_of_dom. exists w. by apply lookup_rows_to_update.
  - destruct (bool_decide (size sel = size A)); simpl;
      by rewrite <- ?app_assoc.
Qed.

(** Committing the same range a second time updates no row and leaves the
    table as the first commit left it. *)
Theorem update_monitored_addresses_twice s A f t :
  let r1 := update_monitored_addresses A f t s in
  let r2 := update_monitored_addresses A f t r1.2 in
  r2.1 = Return 0%nat ∧ table r2.2 = table r1.2.
Proof.
  cbv zeta.
  rewrite (update_monitored_addresses_result
             (update_monitored_addresses A f t s).2).
  rewrite (update_monitored_addresses_table
             (update_monitored_addresses A f t s).2).
  rewrite (update_monitored_addresses_table s).
  by rewrite queryset_update_again, rows_to_update_again.
Qed.

End Checkpointer.

(** ** Failures inside a step *)

Section Step.

Context {World Element Processed : Type}.
Variable cfg : config.
Variable pl : @pipeline World Element Processed.
Implicit Types s : @state World.


Lemma process_addresses_table s A cbn :
  advances (table s) (table (process_addresses cfg pl A cbn s).2)
  ∧ ∀ a, a ∉ A → table (process_addresses cfg pl A cbn s).2 !! a
                 = table s !! a.
Proof.
  destruct (decide (A = ∅)) as [->|HA].
  { unfold process_addresses. rewrite decide_True by done.
    split; [apply advances_refl|done]. }
  destruct (get_block_numbers_for_search cfg s A cbn) as [[f t]|] eqn:Hr.
  - destruct (find_and_process pl A f t
                (py_or cbn (ethereum_client_current_block_number cfg))
                (self s)) as [[els|e] eng] eqn:Hf.
    + rewrite (process_addresses_committing cfg pl s A cbn f t els eng
                 HA Hr Hf). simpl.
      split; [apply queryset_update_advances|].
      intros a Ha. by apply queryset_update_outside.
    + rewrite (process_addresses_raising cfg pl s A cbn f t e eng HA Hr Hf).
      simpl. split; [apply advances_refl|done].
  - rewrite (process_addresses_without_range cfg pl s A cbn HA Hr). simpl.
    split; [apply advances_refl|done].
Qed.

(** Whatever its outcome, a step never lowers a watermark, never adds or
    removes a row and never touches the row of an address outside the set
    it was given; a step that raises, whichever exception, leaves the whole
    table as it was. *)
Theorem process_addresses_table_effect s A cbn :
  let r := process_addresses cfg pl A cbn s in
  advances (table s) (table r.2)
  ∧ (∀ a, a ∉ A → table r.2 !! a = table s !! a)
  ∧ (∀ e, r.1 = Raise e → table r.2 = table s).
Proof.
  cbv zeta. destruct (process_addresses_table s A cbn) as [Hadv Hout].
  split; [done|]. split; [done|]. intros e.
  destruct (decide (A = ∅)) as [->|HA].
  { unfold process_addresses. by rewrite decide_True by done. }
  destruct (get_block_numbers_for_search cfg s A cbn) as [[f t]|] eqn:Hr.
  - destruct (find_and_process pl A f t
                (py_or cbn (ethereum_client_current_block_number cfg))
                (self s)) as [[els|x] eng] eqn:Hf.
    + rewrite (process_addresses_committing cfg pl s A cbn f t els eng
                 HA Hr Hf). simpl.
      destruct (_ =? _)%nat eqn:En; [|done]. intros _.
      apply Nat.eqb_eq in En. by apply queryset_update_nothing.
    + by rewrite (process_addresses_raising cfg pl s A cbn f t x eng
                    HA Hr Hf).
  - by rewrite (process_addresses_without_range cfg pl s A cbn HA Hr).
Qed.

(** When [process_element] returns [g x] for every element [x] and leaves
    the engine alone, [process_elements] returns the concatenation of the
    results in the order of the elements. *)
Theorem process_elements_pure (g : Element → list Processed) elements e :
  (∀ x e', process_element pl x e' = (Return (g x), e')) →
  process_elements pl elements e = (Return (concat (g <$> elements)), e).
Proof.
  intros Hpure. unfold process_elements, sbind.
  assert (∀ acc, process_elements_loop pl elements acc e
                 = (Return (acc ++ (g <$> elements)), e)) as ->.
  { induction elements as [|x xs IH]; intros acc; simpl.
    - by rewrite app_nil_r.
    - unfold sbind. rewrite Hpure, IH. by rewrite <- app_assoc. }
  done.
Qed.

(** [process_elements] stops at the first element whose processing
    raises: the exception is the result, the records of the elements
    before it are dropped and the elements after it are not processed. *)
Theorem process_elements_stops_at_failure (g : Element → list Processed)
    before x rest e err e' :
  (∀ y e0, y ∈ before → process_element pl y e0 = (Return (g y), e0)) →
  process_element pl x e = (Raise err, e') →
  process_elements pl (before ++ x :: rest) e = (Raise err, e').
Proof.
  intros Hpure Hx. unfold process_elements, sbind.
  assert (∀ acc, process_elements_loop pl (before ++ x :: rest) acc e
                 = (Raise err, e')) as ->; [|done].
  induction before as [|y ys IH]; intros acc.
  - simpl. unfold sbind. by rewrite Hx.
  - simpl. unfold sbind. rewrite Hpure by apply list_elem_of_here.
    apply IH. intros z e0 Hz. apply Hpure. by apply list_elem_of_further.
Qed.

(** A strategy that inherits [process_element] fails as soon as its fetch
    finds an element: the step raises [NotImplementedError], keeps the
    window and commits nothing. *)
Theorem unimplemented_process_element_aborts s A cbn f t x xs eng :
  let H := py_or cbn (ethereum_client_current_block_number cfg) in
  process_element pl = process_element_unimplemented →
  A ≠ ∅ →
  get_block_numbers_for_search cfg s A cbn = Some (f, t) →
  find_relevant_elements pl A f t H (self s) = (Return (x :: xs), eng) →
  process_addresses cfg pl A cbn s =
    (Raise NotImplementedError,
     {| self := eng; table := table s;
        trace := trace s ++
          [QueryMin (Some A) (get_from_block_number (table s) (Some A))] |}).
Proof.
  intros H Hpe HA Hr Hf.
  rewrite (process_addresses_raising cfg pl s A cbn f t NotImplementedError
             eng HA Hr); [by rewrite app_nil_r|].
  fold H. unfold find_and_process, sbind. rewrite Hf.
  unfold process_elements, sbind. simpl. unfold sbind. by rewrite Hpe.
Qed.

End Step.


Lemma process_elements_pure_witness :
  process_elements (Demo.throttled (Demo.cfg 0 0 0 20 50)) [tt; tt; tt]
    (Demo.engine_with 10)
  = (Return [tt; tt; tt; tt; tt; tt], Demo.engine_with 10).
Proof.
  apply (process_elements_pure (Demo.throttled (Demo.cfg 0 0 0 20 50))
           (fun _ => [tt; tt]) [tt; tt; tt] (Demo.engine_with 10)).
  intros x e'. reflexivity.
Defined.

Lemma process_elements_stops_at_failure_witness :
  process_elements Demo.picky [true; false; true] (Demo.engine_with 10)
  = (Raise ValueError, Demo.engine_with 10).
Proof.
  apply (process_elements_stops_at_failure Demo.picky (fun _ => [tt])
           [true] false [true] (Demo.engine_with 10) ValueError
           (Demo.engine_with 10)).
  - intros y e0 Hy. apply list_elem_of_singleton in Hy. by subst y.
  - reflexivity.
Defined.

Lemma unimplemented_process_element_aborts_witness :
  process_addresses (Demo.cfg 0 0 0 20 50) Demo.unimplemented
    Demo.one_address (Some 50) (Demo.state_with 10 {[ "0xA"%string := 0 ]})
  = (Raise NotImplementedError,
     {| self := Demo.engine_with 10;
        table := {[ "0xA"%string := 0 ]};
        trace := [QueryMin (Some Demo.one_address) (Some 0)] |}).
Proof.
  rewrite (unimplemented_process_element_aborts (Demo.cfg 0 0 0 20 50)
             Demo.unimplemented
             (Demo.state_with 10 {[ "0xA"%string := 0 ]})
             Demo.one_address (Some 50) 0 9 tt [] (Demo.engine_with 10)).
  - vm_compute. reflexivity.
  - reflexivity.
  - apply one_address_nonempty.
  - vm_compute. reflexivity.
  - reflexivity.
Defined.

(** ** Direction of the throttle *)

Section ThrottleDirection.

Context {World : Type}.
Variable time_time : World → Z.
Variable cfg : config.

(** For a measured step that returns, with a window [w] of at least 1: a
    duration of 5 seconds or more never enlarges the window; a duration of
    10 seconds or less never shrinks it, unless the configured maximum
    takes over; a duration above 30 seconds strictly shrinks a window of 2
    or more; and no adjustment takes the window beyond the larger of [2 w]
    and [w + 20]. *)
Theorem auto_adjust_block_limit_direction {A} (body : strategy A)
    (e e' : @engine World) (a : A) f t :
  let d := time_time (world e') - time_time (world e) in
  let w := block_process_limit e' in
  let w' := block_process_limit
              (auto_adjust_block_limit time_time cfg f t body e).2 in
  block_auto_process_limit cfg = true →
  1 + t - f = block_process_limit e →
  body e = (Return a, e') →
  1 <= w →
  (5 <= d → w' <= w)
  ∧ (d <= 10 → w <= w' ∨ w' = block_process_limit_max cfg)
  ∧ (30 < d → 2 <= w → w' < w)
  ∧ w' <= Z.max (w * 2) (w + 20).
Proof.
  intros d w w' Ha Hc Hb Hw. unfold w', auto_adjust_block_limit.
  apply Z.eqb_eq in Hc. rewrite Ha, Hc, Hb. simpl. fold d w.
  unfold clamp_to_max, adjust_for_delta.
  assert (w / 2 < w) by (apply Z.div_lt; lia).
  assert (0 <= w / 2) by (apply Z.div_pos; lia).
  destruct (d >? 30) eqn:E1;
    [apply Z.gtb_lt in E1|rewrite Z.gtb_ltb in E1; apply Z.ltb_ge in E1];
  [|destruct (d >? 10) eqn:E2;
    [apply Z.gtb_lt in E2|rewrite Z.gtb_ltb in E2; apply Z.ltb_ge in E2];
   [|destruct (d <? 2) eqn:E3;
     [apply Z.ltb_lt in E3|apply Z.ltb_ge in E3];
    [|destruct (d <? 5) eqn:E4;
      [apply Z.ltb_lt in E4|apply Z.ltb_ge in E4]]]];
  (destruct (block_process_limit_max cfg =? 0) eqn:E0; simpl;
   [|destruct (_ >? block_process_limit_max cfg) eqn:E5;
     [apply Z.gtb_lt in E5
     |rewrite Z.gtb_ltb in E5; apply Z.ltb_ge in E5]]);
  lia.
Qed.

End ThrottleDirection.

Lemma auto_adjust_block_limit_direction_witness :
  block_process_limit
    (auto_adjust_block_limit Demo.wall_clock (Demo.cfg 0 0 0 20 1000) 0 99
       Demo.slow_fetch (Demo.engine_with 100)).2
  < 100.
Proof.
  destruct (auto_adjust_block_limit_direction Demo.wall_clock
              (Demo.cfg 0 0 0 20 1000) Demo.slow_fetch (Demo.engine_with 100)
              {| block_process_limit := 100; world := 35 |} tt 0 99)
    as (_ & _ & Hslow & _).
  - reflexivity.
  - reflexivity.
  - reflexivity.
  - simpl. lia.
  - apply Hslow; [vm_compute; reflexivity | simpl; lia].
Defined.

(** A fetch that times out inside the throttle: the window keeps its
    value. *)
Lemma auto_adjust_block_limit_raise_witness :
  auto_adjust_block_limit Demo.wall_clock (Demo.cfg 0 0 0 20 1000) 0 99
    (find_relevant_elements Demo.timing_out ∅ 0 99 1000)
    (Demo.engine_with 100)
  = (Raise Timeout, {| block_process_limit := 100; world := 1 |}).
Proof.
  apply (auto_adjust_block_limit_raise Demo.wall_clock
           (Demo.cfg 0 0 0 20 1000)
           (find_relevant_elements Demo.timing_out ∅ 0 99 1000)
           (Demo.engine_with 100)
           {| block_process_limit := 100; world := 1 |} Timeout 0 99).
  reflexivity.
Defined.

(** ** Progress of a run *)

Section Progress.

Context {World Element Processed : Type}.
Variable cfg : config.
Variable pl : @pipeline World Element Processed.
Implicit Types s : @state World.

Local Abbreviation head_block :=
  (ethereum_client_current_block_number cfg).

Lemma almost_updated_loop_advances fuel A cur :
  ∀ l s r s',
    almost_updated_loop cfg pl fuel A cur l s = Some (r, s') →
    advances (table s) (table s').
Proof.
  induction fuel as [|fuel IH]; intros l s r s' Hrun; [done|].
  simpl in Hrun.
  pose proof (process_addresses_table cfg pl s A (Some cur)) as [Hadv _].
  destruct (process_addresses cfg pl A (Some cur) s)
    as [[[[[els fo] t] upd]|e] s1]; simpl in Hadv.
  - destruct upd.
    + by injection Hrun as <- <-.
    + apply IH in Hrun. simpl in Hrun. by eapply advances_trans.
  - by injection Hrun as <- <-.
Qed.

Lemma not_updated_loop_advances bump fuel A cur :
  ∀ l s r s',
    not_updated_loop cfg pl bump fuel A cur l s = Some (r, s') →
    advances (table s) (table s').
Proof.
  induction fuel as [|fuel IH]; intros l s r s' Hrun; [done|].
  simpl in Hrun.
  pose proof (process_addresses_table cfg pl s A (Some cur)) as [Hadv _].
  destruct (process_addresses cfg pl A (Some cur) s)
    as [[[[[els fo] t] upd]|e] s1]; simpl in Hadv.
  - destruct (match start_block l with Some _ => _ | None => _ end)
      as [ns|e]; [|by injection Hrun as <- <-].
    destruct (bump fo) as [fo'|e]; [|by injection Hrun as <- <-].
    destruct upd.
    + by injection Hrun as <- <-.
    + apply IH in Hrun. simpl in Hrun. by eapply advances_trans.
  - by injection Hrun as <- <-.
Qed.

(** Whatever its outcome, a run never lowers a watermark and never adds
    or removes a row. *)
Theorem start_never_moves_back fuel s r s' :
  start cfg pl fuel s = Some (r, s') →
  advances (table s) (table s').
Proof.
  unfold start, start_with.
  set (s1 := {| self := self s; table := table s; trace := _ |}).
  intros Hrun.
  destruct (if decide (get_almost_updated_addresses cfg s head_block = ∅)
            then _ else _) as [[[l1|e] s2]|] eqn:Hfirst; [| |done].
  - assert (advances (table s) (table s2)) as H1.
    { destruct (decide _) in Hfirst.
      - injection Hfirst as <- <-. apply advances_refl.
      - by apply almost_updated_loop_advances in Hfirst. }
    set (s3 := {| self := self s2; table := table s2; trace := _ |}) in *.
    destruct (decide (get_not_updated_addresses cfg s2 head_block = ∅)).
    + by injection Hrun as <- <-.
    + destruct (not_updated_loop cfg pl py_iadd_one fuel _ _ l1 s3)
        as [[[l2|e] s4]|] eqn:Hsecond; [| |done].
      * apply not_updated_loop_advances in Hsecond. simpl in Hsecond.
        assert (s' = s4) as ->.
        { destruct (if decide _ then None else to_block_number l1);
            [destruct (py_lt _ _) as [[]|]|]; by injection Hrun as <- <-. }
        by eapply advances_trans.
      * apply not_updated_loop_advances in Hsecond. simpl in Hsecond.
        injection Hrun as <- <-. by eapply advances_trans.
  - injection Hrun as <- <-.
    destruct (decide _) in Hfirst; [done|].
    by apply almost_updated_loop_advances in Hfirst.
Qed.

Lemma almost_updated_loop_terminates fuel A :
  A ≠ ∅ →
  ∀ l s lo,
    tier_inv cfg A lo (table s) →
    (Z.to_nat (head_block - confirmations cfg - lo) < fuel)%nat →
    ∃ r, almost_updated_loop cfg pl fuel A head_block l s = Some r.
Proof.
  intros HA. induction fuel as [|fuel IH]; intros l s lo Hinv Hfuel; [lia|].
  simpl.
  destruct (process_addresses cfg pl A (Some head_block) s)
    as [[[[[els fo] t] upd]|e] s1] eqn:Hp; [|eauto].
  destruct (batch_step _ _ _ _ _ _ _ _ _ _ HA Hinv Hp)
    as (f & -> & Hlo & _ & Hnext).
  destruct upd; [eauto|].
  eapply (IH _ _ (t + 1)); [simpl; by apply Hnext|].
  destruct (tier_inv_min cfg _ _ _ HA (Hnext eq_refl)) as (m & _ & _ & ?).
  lia.
Qed.

Lemma not_updated_loop_terminates bump fuel A :
  A ≠ ∅ →
  ∀ l s lo,
    tier_inv cfg A lo (table s) →
    (Z.to_nat (head_block - confirmations cfg - lo) < fuel)%nat →
    ∃ r, not_updated_loop cfg pl bump fuel A head_block l s = Some r.
Proof.
  intros HA. induction fuel as [|fuel IH]; intros l s lo Hinv Hfuel; [lia|].
  simpl.
  destruct (process_addresses cfg pl A (Some head_block) s)
    as [[[[[els fo] t] upd]|e] s1] eqn:Hp; [|eauto].
  destruct (batch_step _ _ _ _ _ _ _ _ _ _ HA Hinv Hp)
    as (f & -> & Hlo & _ & Hnext).
  destruct (match start_block l with Some _ => _ | None => _ end)
    as [ns|e]; [|eauto].
  destruct (bump (Some f)) as [fo'|e]; [|eauto].
  destruct upd; [eauto|].
  eapply (IH _ _ (t + 1)); [simpl; by apply Hnext|].
  destruct (tier_inv_min cfg _ _ _ HA (Hnext eq_refl)) as (m & _ & _ & ?).
  lia.
Qed.
Lemma tier_inv_bounded A lo (rows : gmap string Z) :
  (∀ a w, rows !! a = Some w → lo <= w) →
  (∀ a, a ∈ A → ∃ w, rows !! a = Some w
                     ∧ w <= head_block - confirmations cfg) →
  tier_inv cfg A lo rows.
Proof.
  intros Hlo Hup a Ha. destruct (Hup a Ha) as (w & Hw & ?).
  exists w. split; [done|]. split; [by apply (Hlo a)|done].
Qed.

Lemma tier_inv_almost_updated_from s lo :
  (∀ a w, table s !! a = Some w → lo <= w) →
  tier_inv cfg (get_almost_updated_addresses cfg s head_block) lo (table s).
Proof.
  intros Hlo. apply tier_inv_bounded; [done|].
  intros a (w & Hw & ?)%elem_of_almost_updated. exists w. split; [done|lia].
Qed.

Lemma tier_inv_not_updated_from s lo :
  (∀ a w, table s !! a = Some w → lo <= w) →
  tier_inv cfg (get_not_updated_addresses cfg s head_block) lo (table s).
Proof.
  intros Hlo. apply tier_inv_bounded; [done|].
  intros a (w & Hw & ?)%elem_of_not_updated. exists w. split; [done|lia].
Qed.

(** The loops of [start] terminate: when every watermark is at least
    [lo], a fuel above [head - confirmations - lo] is enough for the run to
    finish, with a result or an exception. *)
Theorem start_terminates fuel s lo :
  (∀ a w, table s !! a = Some w → lo <= w) →
  (Z.to_nat (head_block - confirmations cfg - lo) < fuel)%nat →
  ∃ r s', start cfg pl fuel s = Some (r, s').
Proof.
  intros Hlo Hfuel. unfold start, start_with.
  set (A1 := get_almost_updated_addresses cfg s head_block).
  set (s1 := {| self := self s; table := table s; trace := _ |}).
  set (l0 := {| total_number_processed_elements := 0; start_block := None;
                from_block_number := None; to_block_number := None |}).
  assert (∃ r1, (if decide (A1 = ∅) then Some (Return l0, s1)
                 else almost_updated_loop cfg pl fuel A1 head_block l0 s1)
                = Some r1
                ∧ advances (table s) (table r1.2)) as ([r1 s2] & -> & Hadv).
  { destruct (decide (A1 = ∅)) as [|HA1].
    - eexists. split; [done|]. apply advances_refl.
    - destruct (almost_updated_loop_terminates fuel A1 HA1 l0 s1 lo)
        as [[r1 s2] Hr1];
        [exact (tier_inv_almost_updated_from s lo Hlo)|done|].
      exists (r1, s2). split; [done|].
      by apply almost_updated_loop_advances in Hr1. }
  simpl in Hadv. destruct r1 as [l1|e]; [|eauto].
  set (A2 := get_not_updated_addresses cfg s2 head_block).
  set (s3 := {| self := self s2; table := table s2; trace := _ |}).
  destruct (decide (A2 = ∅)) as [|HA2]; [eauto|].
  destruct (not_updated_loop_terminates py_iadd_one fuel A2 HA2 l1 s3
              lo) as [[[l2|e] s4] ->]; [| |eauto..].
  - apply (tier_inv_not_updated_from s2 lo).
    by apply (advances_lower_bound (table s)).
  - done.
  - destruct (if decide _ then None else to_block_number l1);
      [destruct (py_lt _ _) as [[]|]|]; eauto.
Qed.

Lemma batch_step_table s A lo els fo t upd s' :
  A ≠ ∅ →
  tier_inv cfg A lo (table s) →
  0 <= lo →
  0 <= blocks_to_reindex_again cfg →
  process_addresses cfg pl A (Some head_block) s
    = (Return (els, fo, t, upd), s') →
  upd = true →
  ∀ a, a ∈ A →
    table s' !! a = Some (head_block - confirmations cfg + 1).
Proof.
  intros HA Hinv Hlo0 HR Hp Hupd a Ha.
  apply process_addresses_Return in Hp as [_ Hp]. cbv zeta in Hp.
  destruct (tier_inv_min cfg _ _ _ HA Hinv) as (m & Hm & Hmin & Hlo).
  rewrite (range_unfold _ _ _ _ _ Hm) in Hp. cbv zeta in Hp.
  rewrite !py_or_same in Hp.
  set (H := ethereum_client_current_block_number cfg) in *.
  destruct (H - m <? confirmations cfg) eqn:E1;
    [apply Z.ltb_lt in E1; lia|].
  destruct Hp as [[? _]|(f & Hr & _ & Hu & _ & Htab & _)]; [done|].
  rewrite Hupd in Hu. symmetry in Hu. apply Z.eqb_eq in Hu.
  injection Hr as Hf Ht.
  destruct (Hinv a Ha) as (w & Hw & Hlow). fold H in Hlow.
  destruct Hmin as [_ Hmin]. specialize (Hmin a w Ha Hw).
  assert (f <= m) by (destruct (_ >? _) in Hf; lia).
  rewrite Htab, lookup_queryset_update, Hu.
  rewrite decide_True; [done|].
  exists w. apply lookup_rows_to_update. split; [done|]. split; [done|]. lia.
Qed.

Lemma not_updated_loop_catches_up fuel A :
  A ≠ ∅ →
  0 <= blocks_to_reindex_again cfg →
  ∀ l s lo l' s',
    tier_inv cfg A lo (table s) →
    0 <= lo →
    not_updated_loop cfg pl py_iadd_one fuel A head_block l s
      = Some (Return l', s') →
    (∀ a, a ∈ A →
       table s' !! a = Some (head_block - confirmations cfg + 1))
    ∧ (∀ a, a ∉ A → table s' !! a = table s !! a).
Proof.
  intros HA HR.
  induction fuel as [|fuel IH]; intros l s lo l' s' Hinv Hlo Hrun; [done|].
  simpl in Hrun.
  pose proof (process_addresses_table cfg pl s A (Some head_block))
    as [_ Hout].
  destruct (process_addresses cfg pl A (Some head_block) s)
    as [[[[[els fo] t] upd]|e] s1] eqn:Hp; [|done]. simpl in Hout.
  destruct (batch_step _ _ _ _ _ _ _ _ _ _ HA Hinv Hp)
    as (f & -> & Ht & _ & Hnext).
  destruct (match start_block l with Some _ => _ | None => _ end)
    as [ns|e]; [|done].
  simpl in Hrun. destruct upd.
  - injection Hrun as <- <-. simpl. split; [|done].
    by apply (batch_step_table s A lo els (Some f) t true s1).
  - eapply (IH _ _ (t + 1)) in Hrun as [Hin Hout'];
      [|simpl; by apply Hnext|lia].
    simpl in *. split; [done|].
    intros a Ha. rewrite Hout' by done. by apply Hout.
Qed.

(** With non-negative watermarks and a non-negative reindex margin, a
    run that returns leaves every watermark past [head - confirmations]:
    no address is left to a further run at the same height. *)
Theorem start_catches_up fuel s n b s' :
  (∀ a w, table s !! a = Some w → 0 <= w) →
  0 <= blocks_to_reindex_again cfg →
  start cfg pl fuel s = Some (Return (n, b), s') →
  (∀ a w, table s' !! a = Some w → head_block - confirmations cfg < w)
  ∧ get_not_updated_addresses cfg s' head_block = ∅.
Proof.
  intros Hnn HR Hrun.
  assert (∀ a w, table s' !! a = Some w → head_block - confirmations cfg < w)
    as Hall.
  { revert Hrun. unfold start, start_with.
    set (A1 := get_almost_updated_addresses cfg s head_block).
    set (s1 := {| self := self s; table := table s; trace := _ |}).
    set (l0 := {| total_number_processed_elements := 0;
                  start_block := None; from_block_number := None;
                  to_block_number := None |}).
    intros Hrun.
    destruct (if decide (A1 = ∅) then Some (Return l0, s1)
              else almost_updated_loop cfg pl fuel A1 head_block l0 s1)
      as [[[l1|e] s2]|] eqn:Hfirst; [|done|done].
    assert (advances (table s) (table s2)) as Hadv.
    { destruct (decide (A1 = ∅)).
      - injection Hfirst as <- <-. apply advances_refl.
      - by apply almost_updated_loop_advances in Hfirst. }
    pose proof (advances_lower_bound _ _ 0 Hadv Hnn) as Hnn2.
    set (A2 := get_not_updated_addresses cfg s2 head_block) in *.
    set (s3 := {| self := self s2; table := table s2; trace := _ |}) in *.
    assert (∀ a w, table s2 !! a = Some w → a ∉ A2 →
                   head_block - confirmations cfg < w) as Hout2.
    { intros a w Hw Ha.
      destruct (decide (w <= head_block - confirmations cfg)); [|lia].
      exfalso. apply Ha. apply elem_of_not_updated. eauto. }
    destruct (decide (A2 = ∅)) as [HA2|HA2].
    - injection Hrun as <- <- <-. simpl. intros a w Hw.
      apply (Hout2 a w Hw). rewrite HA2. set_solver.
    - destruct (not_updated_loop cfg pl py_iadd_one fuel A2 head_block l1 s3)
        as [[[l2|e] s4]|] eqn:Hsecond; [|done|done].
      apply (not_updated_loop_catches_up fuel A2 HA2 HR l1 s3 0) in Hsecond
        as [Hin Hout]; [|exact (tier_inv_not_updated_from s2 0 Hnn2)|done].
      assert (s' = s4) as ->.
      { destruct (if decide _ then None else to_block_number l1);
          [destruct (py_lt _ _) as [[]|]|]; congruence. }
      intros a w Hw. destruct (decide (a ∈ A2)) as [Ha|Ha].
      + rewrite (Hin a Ha) in Hw. injection Hw as <-. lia.
      + rewrite (Hout a Ha) in Hw. by apply (Hout2 a w Hw). }
  split; [done|].
  apply elem_of_equiv_empty_L. intros a (w & Hw & ?)%elem_of_not_updated.
  specialize (Hall a w Hw). lia.
Qed.

(** When every watermark is already past [head - confirmations], both
    tiers are empty: the run returns [(0, 0)] after its three queries,
    without a batch and without an update. *)
Theorem start_idle fuel s :
  (∀ a w, table s !! a = Some w → head_block - confirmations cfg < w) →
  start cfg pl fuel s =
    Some (Return (0, 0),
          {| self := self s; table := table s;
             trace := trace s ++
               [QueryMin None (get_from_block_number (table s) None);
                QueryBetween
                  (Z.max (py_or (get_from_block_number (table s) None) 0)
                         (head_block - updated_blocks_behind cfg))
                  (head_block - confirmations cfg) ∅;
                QueryUpTo (head_block - confirmations cfg) ∅] |}).
Proof.
  intros Hall. unfold start, start_with.
  assert (get_almost_updated_addresses cfg s head_block = ∅) as ->.
  { apply elem_of_equiv_empty_L.
    intros a (w & Hw & ?)%elem_of_almost_updated.
    specialize (Hall a w Hw). lia. }
  rewrite decide_True by done.
  set (s1 := {| self := self s; table := table s; trace := _ |}).
  assert (get_not_updated_addresses cfg s1 head_block = ∅) as ->.
  { apply elem_of_equiv_empty_L.
    intros a (w & Hw & ?)%elem_of_not_updated.
    specialize (Hall a w Hw). lia. }
  rewrite decide_True by done. simpl.
  by rewrite <- app_assoc.
Qed.

End Progress.

Lemma behind_state_rows a w :
  table Demo.behind_state !! a = Some w → w = 10.
Proof.
  unfold Demo.behind_state, Demo.state_with. simpl.
  by intros [_ <-]%lookup_singleton_Some.
Qed.

(** Window 10, margin 14, height 25, one address at watermark 10: the run
    returns after two batches and the address ends at 26. *)
Lemma start_never_moves_back_witness :
  ∃ s',
    start (Demo.cfg 0 0 14 20 25) (Demo.throttled (Demo.cfg 0 0 14 20 25))
      10 Demo.behind_state
    = Some (Return (4, 16), s')
    ∧ advances (table Demo.behind_state) (table s').
Proof.
  eexists. split; [vm_compute; reflexivity|].
  apply (start_never_moves_back (Demo.cfg 0 0 14 20 25)
           (Demo.throttled (Demo.cfg 0 0 14 20 25)) 10 Demo.behind_state
           (Return (4, 16))).
  vm_compute. reflexivity.
Defined.

Lemma start_terminates_witness :
  ∃ r s',
    start (Demo.cfg 0 0 14 20 25) (Demo.throttled (Demo.cfg 0 0 14 20 25))
      16 Demo.behind_state
    = Some (r, s').
Proof.
  apply (start_terminates (Demo.cfg 0 0 14 20 25)
           (Demo.throttled (Demo.cfg 0 0 14 20 25)) 16 Demo.behind_state 10).
  - intros a w Hw. apply behind_state_rows in Hw. lia.
  - simpl. lia.
Defined.

Lemma start_catches_up_witness :
  ∃ s',
    start (Demo.cfg 0 0 14 20 25) (Demo.throttled (Demo.cfg 0 0 14 20 25))
      10 Demo.behind_state
    = Some (Return (4, 16), s')
    ∧ get_not_updated_addresses (Demo.cfg 0 0 14 20 25) s'
        (ethereum_client_current_block_number (Demo.cfg 0 0 14 20 25))
      = ∅.
Proof.
  eexists. split; [vm_compute; reflexivity|].
  refine (proj2 (start_catches_up (Demo.cfg 0 0 14 20 25)
                   (Demo.throttled (Demo.cfg 0 0 14 20 25)) 10
                   Demo.behind_state 4 16 _ _ _ _)).
  - intros a w Hw. apply behind_state_rows in Hw. lia.
  - simpl. lia.
  - vm_compute. reflexivity.
Defined.

(** One address at watermark 30, height 25: nothing to do, even without
    fuel. *)
Lemma start_idle_witness :
  start (Demo.cfg 0 0 14 20 25) (Demo.throttled (Demo.cfg 0 0 14 20 25))
    0 Demo.ahead_state
  = Some (Return (0, 0),
          {| self := Demo.engine_with 10;
             table := {[ "0xA"%string := 30 ]};
             trace := [QueryMin None (Some 30); QueryBetween 30 25 ∅;
                       QueryUpTo 25 ∅] |}).
Proof.
  rewrite (start_idle (Demo.cfg 0 0 14 20 25)
             (Demo.throttled (Demo.cfg 0 0 14 20 25)) 0 Demo.ahead_state).
  - vm_compute. reflexivity.
  - intros a w Hw. unfold Demo.ahead_state, Demo.state_with in Hw.
    simpl in Hw. apply lookup_singleton_Some in Hw as [_ <-]. simpl. lia.
Defined.

Lemma start_counts_witness :
  ∃ s',
    start (Demo.cfg 0 0 14 20 25) (Demo.throttled (Demo.cfg 0 0 14 20 25))
      10 Demo.behind_state
    = Some (Return (4, 16), s')
    ∧ ∃ evs,
        trace s' = trace Demo.behind_state ++ evs
        ∧ let almost := processed_batches AlmostUpdated evs in
          let behind := processed_batches NotUpdated evs in
          4 = elements_of (almost ++ behind)
          ∧ 16 = blocks_between
                   (list_min (take 1 (first_blocks almost)
                              ++ first_blocks behind))
                   (list_max (last_blocks (almost ++ behind))).
Proof.
  eexists. split; [vm_compute; reflexivity|].
  apply (start_counts (Demo.cfg 0 0 14 20 25)
           (Demo.throttled (Demo.cfg 0 0 14 20 25)) 10 Demo.behind_state
           4 16).
  vm_compute. reflexivity.
Defined.
